(** * SignalFence: the token bucket, its per-key store and the limiter facade

    A shallow embedding of [pkg/signalfence] (token_bucket.go, store.go,
    limiter.go, options.go, config.go, key_extractor.go, errors.go) and of
    the [core], [store], [middleware], [metrics] and [api] packages.

    Conventions of the embedding.
    - [int64] values ([capacity], the [n] of [AllowN], [Remaining]) are [Z].
    - [float64] values ([tokens], [refillRate]) are IEEE 754 binary64
      numbers: the [spec_float] of the standard library at precision 53
      and maximal exponent 1024, with its zeros, infinities and NaN.
      Every arithmetic operation of the source is one operation of that
      specification, rounded to the nearest value, ties to even, on its
      own: no two operations are fused, as the Go compiler does it on
      amd64.
    - [time.Time] is an instant in nanoseconds, [time.Duration] a number of
      nanoseconds; [Time.Sub] saturates at the [int64] bounds as the Go
      library documents.
    - Every call of [time.Now()] is a reading of the clock.  The pure
      functions on a bucket take the reading as the argument [now]; the
      pointer-level operations take their readings from the world.
    - [*Bucket] is a location in a heap of buckets, so that the store and
      its callers share the bucket they mutate.
    - Mutexes are omitted: each method body runs as one atomic step. *)

From Stdlib Require Import ZArith QArith Qround Qminmax Qpower Lqa Lia Ascii SpecFloat.
From stdpp Require Import base option gmap strings list fin_maps pretty.

Local Open Scope Z_scope.

(** ** Time *)

Module GoTime.

Definition Time := Z.
Definition Duration := Z.

Definition Nanosecond : Duration := 1.
Definition Millisecond : Duration := 1000000.
Definition Second : Duration := 1000000000.

Definition minDuration : Duration := - 2 ^ 63.
Definition maxDuration : Duration := 2 ^ 63 - 1.

(** [t.Sub(u)]: the difference, clamped to what a [Duration] can hold. *)
Definition Sub (t u : Time) : Duration :=
  let d := t - u in
  if maxDuration <? d then maxDuration
  else if d <? minDuration then minDuration
  else d.

(** [-d] on [int64]: two's complement negation. *)
Definition neg (d : Duration) : Duration :=
  if d =? minDuration then minDuration else - d.

(** [t.Add(d)]. *)
Definition Add (t : Time) (d : Duration) : Time := t + d.

(** [t.Before(u)]. *)
Definition Before (t u : Time) : bool := t <? u.

End GoTime.
Import GoTime.

(** ** [float64] *)

(** A [float64] value. *)
Definition binary64 : Type := spec_float.

Definition NaN : binary64 := S754_nan.
Definition Inf : binary64 := S754_infinity false.

(** [x + y], [x - y], [x * y] and [x / y]. *)
Definition fadd : binary64 -> binary64 -> binary64 := SFadd 53 1024.
Definition fsub : binary64 -> binary64 -> binary64 := SFsub 53 1024.
Definition fmul : binary64 -> binary64 -> binary64 := SFmul 53 1024.
Definition fdiv : binary64 -> binary64 -> binary64 := SFdiv 53 1024.

(** [x <= y] and [x < y]; both are false when either side is NaN.  The
    source's [x >= y] is [fle y x] and its [x > y] is [flt y x]. *)
Definition fle : binary64 -> binary64 -> bool := SFleb.
Definition flt : binary64 -> binary64 -> bool := SFltb.

(** [float64(n)]: the integer rounded to the nearest [float64]. *)
Definition float64 (n : Z) : binary64 := binary_normalize 53 1024 n 0 false.

(** The integer part of a finite value: its magnitude [m * 2^e] with the
    fraction cut off, and its sign put back. *)
Definition truncate (s : bool) (m : positive) (e : Z) : Z :=
  let a := if 0 <=? e then Zpos m * 2 ^ e else Zpos m / 2 ^ (- e) in
  if s then - a else a.

(** [int64(x)] on a float: the fractional part is discarded (truncation
    toward zero).  Go leaves the result to the implementation when the
    value does not fit an [int64] or is NaN; here it is [-2^63], the
    result on amd64. *)
Definition int64 (x : binary64) : Z :=
  match x with
  | S754_zero _ => 0
  | S754_finite s m e =>
      let z := truncate s m e in
      if (- 2 ^ 63 <=? z) && (z <? 2 ^ 63) then z else - 2 ^ 63
  | _ => - 2 ^ 63
  end.



(** The exact value of a float as a rational; 0 for infinities and NaN. *)
Definition exact (x : binary64) : Q :=
  match x with
  | S754_finite s m e => (inject_Z (if s then Zneg m else Zpos m) * Qpower 2 e)%Q
  | _ => 0%Q
  end.

(** [d.Seconds()]: whole seconds plus the fraction, as the library
    computes it. *)
Definition Seconds (d : Duration) : binary64 :=
  fadd (float64 (Z.quot d Second)) (fdiv (float64 (Z.rem d Second)) (float64 1000000000)).

(** ** Errors (errors.go) *)

Inductive error : Type :=
| ErrInvalidConfig
| ErrNegativeCapacity
| ErrNegativeRefillRate
| ErrInvalidKey
| ErrStoreFailed
| ErrKeyExtractionFailed
(** [fmt.Errorf("%w: failed to create bucket: %v", ErrStoreFailed, err)] *)
| ErrCreateBucket (cause : error)
(** [fmt.Errorf("failed to get bucket: %w", err)] *)
| ErrGetBucket (cause : error).

Inductive result (A : Type) : Type :=
| Ok (a : A)
| Err (e : error).
Arguments Ok {A} a.
Arguments Err {A} e.

(** ** The bucket (token_bucket.go) *)

Record Bucket : Type := mkBucket {
  capacity : Z;
  tokens : binary64;
  refillRate : binary64;
  lastRefillTime : Time
}.

Definition NewBucket (now : Time) (capacity : Z) (refillRate : binary64) : result Bucket :=
  if capacity <=? 0 then Err ErrNegativeCapacity
  else if fle refillRate (float64 0) then Err ErrNegativeRefillRate
  else Ok {| capacity := capacity;
             tokens := float64 capacity;
             refillRate := refillRate;
             lastRefillTime := now |}.

Definition refill (now : Time) (b : Bucket) : Bucket :=
  let elapsed := Seconds (Sub now (lastRefillTime b)) in
  let tokensToAdd := fmul elapsed (refillRate b) in
  let tokens1 := fadd (tokens b) tokensToAdd in
  let tokens2 :=
    if flt (float64 (capacity b)) tokens1 then float64 (capacity b)
    else tokens1 in
  {| capacity := capacity b;
     tokens := tokens2;
     refillRate := refillRate b;
     lastRefillTime := now |}.

Definition AllowN (now : Time) (n : Z) (b : Bucket) : bool * Bucket :=
  let b1 := refill now b in
  if fle (float64 n) (tokens b1) then
    (true, {| capacity := capacity b1;
              tokens := fsub (tokens b1) (float64 n);
              refillRate := refillRate b1;
              lastRefillTime := lastRefillTime b1 |})
  else (false, b1).

Definition Allow (now : Time) (b : Bucket) : bool * Bucket := AllowN now 1 b.

Definition Remaining (now : Time) (b : Bucket) : Z * Bucket :=
  let b1 := refill now b in
  (int64 (tokens b1), b1).

Definition Capacity (b : Bucket) : Z := capacity b.

Definition RefillRate (b : Bucket) : binary64 := refillRate b.

Definition RetryAfter (now : Time) (b : Bucket) : Duration * Bucket :=
  let b1 := refill now b in
  if fle (float64 1) (tokens b1) then (0, b1)
  else
    let tokensNeeded := fsub (float64 1) (tokens b1) in
    let secondsNeeded := fdiv tokensNeeded (refillRate b1) in
    (int64 (fmul secondsNeeded (float64 Second)), b1).

(** ** The core package's variant (core/types.go, core/bucket.go) *)

Module core.

Record Config : Type := mkConfig {
  Capacity : binary64;
  RefillPerSec : binary64
}.




End core.



(** ** The world: clock, heap of buckets, the store object *)

Definition loc := positive.

Module BucketConfig.
Record t : Type := mk {
  Capacity : Z;
  RefillRate : binary64
}.
End BucketConfig.

Record bucketEntry : Type := mkEntry {
  bucket : loc;
  lastAccessed : Time
}.

Record InMemoryStore : Type := mkStore {
  buckets : gmap string bucketEntry;
  config : BucketConfig.t;
  cleanupAge : Duration;
  lastCleanup : Time
}.

(** [clock w i] is what the [i]-th call of [time.Now()] returns and
    [ticks w] counts the calls made so far. *)
Record World : Type := mkWorld {
  clock : nat -> Time;
  ticks : nat;
  heap : gmap loc Bucket;
  store : InMemoryStore
}.

(** A computation on the world; [None] is a nil-pointer panic. *)
Definition M (A : Type) : Type := World -> option (A * World).

#[global] Instance M_ret : MRet M := fun A a w => Some (a, w).
#[global] Instance M_bind : MBind M := fun A B f m w =>
  match m w with
  | Some (a, w') => f a w'
  | None => None
  end.

Definition time_Now : M Time := fun w =>
  Some (clock w (ticks w),
        {| clock := clock w; ticks := S (ticks w); heap := heap w; store := store w |}).

Definition load (l : loc) : M Bucket := fun w =>
  match heap w !! l with
  | Some b => Some (b, w)
  | None => None
  end.

Definition save (l : loc) (b : Bucket) : M unit := fun w =>
  Some (tt, {| clock := clock w; ticks := ticks w;
               heap := <[l := b]> (heap w); store := store w |}).

Definition alloc (b : Bucket) : M loc := fun w =>
  let l := fresh (dom (heap w)) in
  Some (l, {| clock := clock w; ticks := ticks w;
              heap := <[l := b]> (heap w); store := store w |}).

Definition get_store : M InMemoryStore := fun w => Some (store w, w).

Definition put_store (s : InMemoryStore) : M unit := fun w =>
  Some (tt, {| clock := clock w; ticks := ticks w; heap := heap w; store := s |}).

(** A method of [*Bucket] that reads the clock once: [bucket.Allow()],
    [bucket.Remaining()], [bucket.RetryAfter()]. *)
Definition method {A : Type} (l : loc) (body : Time -> Bucket -> A * Bucket) : M A :=
  b ← load l;
  now ← time_Now;
  let '(r, b') := body now b in
  _ ← save l b';
  mret r.

(** An accessor of [*Bucket]: [bucket.Capacity()]. *)
Definition getter {A : Type} (l : loc) (field : Bucket -> A) : M A :=
  b ← load l;
  mret (field b).

(** ** The in-memory store (store.go) *)

(** [NewBucket] behind a pointer: the clock is read only once validation
    has passed. *)
Definition NewBucketPtr (capacity : Z) (refillRate : binary64) : M (result loc) := fun w =>
  match NewBucket (clock w (ticks w)) capacity refillRate with
  | Err e => Some (Err e, w)
  | Ok _ =>
      (now ← time_Now;
       match NewBucket now capacity refillRate with
       | Ok b => l ← alloc b; mret (Ok l)
       | Err e => mret (Err e)
       end) w
  end.

Definition NewInMemoryStore (now : Time) (config : BucketConfig.t) (cleanupAge : Duration)
  : result InMemoryStore :=
  if BucketConfig.Capacity config <=? 0 then Err ErrNegativeCapacity
  else if fle (BucketConfig.RefillRate config) (float64 0) then Err ErrNegativeRefillRate
  else Ok {| buckets := ∅;
             config := config;
             cleanupAge := cleanupAge;
             lastCleanup := now |}.

Definition touch (key : string) (entry : bucketEntry) : M (result loc) :=
  now ← time_Now;
  s ← get_store;
  _ ← put_store {| buckets := <[key := {| bucket := bucket entry; lastAccessed := now |}]> (buckets s);
                   config := config s;
                   cleanupAge := cleanupAge s;
                   lastCleanup := lastCleanup s |};
  mret (Ok (bucket entry)).

Definition GetBucket (key : string) : M (result loc) :=
  if decide (key = "") then mret (Err ErrInvalidKey)
  else
    s ← get_store;
    match buckets s !! key with
    | Some entry => touch key entry
    | None =>
        s ← get_store;
        match buckets s !! key with
        | Some entry => touch key entry
        | None =>
            r ← NewBucketPtr (BucketConfig.Capacity (config s)) (BucketConfig.RefillRate (config s));
            match r with
            | Err e => mret (Err (ErrCreateBucket e))
            | Ok l =>
                now ← time_Now;
                s ← get_store;
                _ ← put_store {| buckets := <[key := {| bucket := l; lastAccessed := now |}]> (buckets s);
                                 config := config s;
                                 cleanupAge := cleanupAge s;
                                 lastCleanup := lastCleanup s |};
                mret (Ok l)
            end
        end
    end.

(** One iteration of the loop of [Cleanup]. *)
Definition cleanup_step (cutoff : Time) (acc : gmap string bucketEntry * Z)
  (kv : string * bucketEntry) : gmap string bucketEntry * Z :=
  if Before (lastAccessed (snd kv)) cutoff
  then (delete (fst kv) (fst acc), snd acc + 1)
  else acc.

(** [for key, entry := range s.buckets { ... }]: every entry present when
    the loop starts is visited once (the loop deletes only the entry it
    is visiting). *)
Definition cleanup_loop (cutoff : Time) (m : gmap string bucketEntry)
  : gmap string bucketEntry * Z :=
  foldl (cleanup_step cutoff) (m, 0) (map_to_list m).

Definition Cleanup : M (result Z) :=
  s ← get_store;
  if cleanupAge s =? 0 then mret (Ok 0)
  else
    now ← time_Now;
    let cutoff := Add now (neg (cleanupAge s)) in
    let '(m, removed) := cleanup_loop cutoff (buckets s) in
    _ ← put_store {| buckets := m;
                     config := config s;
                     cleanupAge := cleanupAge s;
                     lastCleanup := now |};
    mret (Ok removed).

Definition Count : M Z :=
  s ← get_store;
  mret (Z.of_nat (size (buckets s))).

(** ** The limiter (limiter.go) *)

Module Decision.
Record t : Type := mk {
  Allowed : bool;
  Remaining : Z;
  Limit : Z;
  RetryAfter : Duration;
  Key : string;
  Route : string
}.
End Decision.

Module rateLimiter.

(** [rl.Allow(key)], for a limiter whose store is the world's store. *)
Definition Allow (key : string) : M (result Decision.t) :=
  if decide (key = "") then mret (Err ErrInvalidKey)
  else
    r ← GetBucket key;
    match r with
    | Err e => mret (Err (ErrGetBucket e))
    | Ok bucket =>
        allowed ← method bucket Allow;
        remaining ← method bucket Remaining;
        limit ← getter bucket Capacity;
        if (allowed : bool) then
          mret (Ok {| Decision.Allowed := allowed;
                      Decision.Remaining := remaining;
                      Decision.Limit := limit;
                      Decision.RetryAfter := 0;
                      Decision.Key := key;
                      Decision.Route := "" |})
        else
          retry ← method bucket RetryAfter;
          mret (Ok {| Decision.Allowed := allowed;
                      Decision.Remaining := remaining;
                      Decision.Limit := limit;
                      Decision.RetryAfter := retry;
                      Decision.Key := key;
                      Decision.Route := "" |})
    end.

End rateLimiter.


(** ** Sequences of calls on one bucket *)

Inductive Call : Type :=
| CallAllow
| CallAllowN (n : Z)
| CallRemaining
| CallRetryAfter.

(** The bucket after one call made when the clock reads [now]. *)
Definition after_call (now : Time) (c : Call) (b : Bucket) : Bucket :=
  match c with
  | CallAllow => snd (Allow now b)
  | CallAllowN n => snd (AllowN now n b)
  | CallRemaining => snd (Remaining now b)
  | CallRetryAfter => snd (RetryAfter now b)
  end.

(** ** Classes of floats *)

(** A number that is not below zero: a zero, a positive finite number or
    the positive infinity. *)
Definition nonneg (x : binary64) : Prop :=
  match x with
  | S754_zero _ => True
  | S754_finite s _ _ => s = false
  | S754_infinity s => s = false
  | S754_nan => False
  end.

(** A number that is not above zero. *)
Definition nonpos (x : binary64) : Prop :=
  match x with
  | S754_zero _ => True
  | S754_finite s _ _ => s = true
  | S754_infinity s => s = true
  | S754_nan => False
  end.

(** A value of sign [s] (true for minus) that is not NaN. *)
Definition has_sign (s : bool) (x : binary64) : Prop :=
  match x with
  | S754_zero s' | S754_finite s' _ _ | S754_infinity s' => s' = s
  | S754_nan => False
  end.

(** A zero or a finite number. *)
Definition finite (x : binary64) : Prop :=
  match x with
  | S754_zero _ | S754_finite _ _ _ => True
  | _ => False
  end.

(** An [int64] value. *)
Definition is_int64 (n : Z) : Prop := - 2 ^ 63 <= n < 2 ^ 63.

(** A number above zero: a positive finite number or the positive
    infinity. *)
Definition above_zero (x : binary64) : Prop :=
  match x with
  | S754_finite s _ _ | S754_infinity s => s = false
  | _ => False
  end.

(** A positive finite number. *)
Definition positive_finite (x : binary64) : Prop :=
  match x with
  | S754_finite s _ _ => s = false
  | _ => False
  end.

(** What the data model asks of a bucket: a positive capacity, a refill
    rate that is a positive number, and tokens between zero and the
    capacity. *)
Definition valid (b : Bucket) : Prop :=
  0 < capacity b /\ positive_finite (refillRate b) /\
  nonneg (tokens b) /\ fle (tokens b) (float64 (capacity b)) = true.

(** ** The claims' formulas in exact arithmetic *)


(** The wait of [RetryAfter] in the words of the specification, on the
    refilled bucket: zero with a token available, else
    [ceil((1 - tokens) / refillRate * 1000)] milliseconds. *)
Definition spec_RetryAfter (b1 : Bucket) : Duration :=
  if Qle_bool 1 (exact (tokens b1)) then 0
  else Qceiling ((1 - exact (tokens b1)) / exact (refillRate b1) * 1000)%Q * Millisecond.



(** ** Concrete buckets *)


(** A bucket of capacity 1 refilled at 1024 tokens per second, and the
    same bucket once its token is taken. *)
Definition fast_bucket : Bucket :=
  {| capacity := 1; tokens := float64 1; refillRate := float64 1024;
     lastRefillTime := 0 |}.

Definition fast_bucket_drained : Bucket := snd (Allow 0 fast_bucket).



(** ** Well-formed worlds *)

(** The configuration a store accepts at construction: the two tests of
    [NewInMemoryStore] pass. *)
Definition store_ok (s : InMemoryStore) : Prop :=
  0 < BucketConfig.Capacity (config s) /\
  fle (BucketConfig.RefillRate (config s)) (float64 0) = false.

(** The store's configuration is accepted and every entry of the store
    points to a bucket of the heap. *)
Definition wf (w : World) : Prop :=
  store_ok (store w) /\
  forall k e, buckets (store w) !! k = Some e -> is_Some (heap w !! bucket e).

(** The world after the [i]-th reading of the clock, with heap [h] and
    store [s]. *)
Definition at_tick (w : World) (i : nat) (h : gmap loc Bucket) (s : InMemoryStore) : World :=
  {| clock := clock w; ticks := i; heap := h; store := s |}.

(** The store with the entry of [key] set to bucket [l], accessed at [t]. *)
Definition with_entry (s : InMemoryStore) (key : string) (l : loc) (t : Time) : InMemoryStore :=
  {| buckets := <[key := {| bucket := l; lastAccessed := t |}]> (buckets s);
     config := config s;
     cleanupAge := cleanupAge s;
     lastCleanup := lastCleanup s |}.

(** An entry that [Cleanup] removes at cutoff [cutoff]. *)
Definition idle (cutoff : Time) (kv : string * bucketEntry) : Prop :=
  lastAccessed (snd kv) < cutoff.

#[global] Instance idle_dec (cutoff : Time) (kv : string * bucketEntry) :
  Decision (idle cutoff kv).
Proof. unfold idle. apply _. Defined.

#[global] Instance bucketEntry_eq_dec : EqDecision bucketEntry.
Proof. solve_decision. Defined.

(** ** Concrete runs *)

(** A limiter of capacity 1 refilled at one token per microsecond.  The
    clock reads 0 for the first five readings, 500 ns at the sixth and
    1500 ns from then on. *)
Definition burst_clock (i : nat) : Time :=
  if (i <=? 4)%nat then 0 else if (i =? 5)%nat then 500 else 1500.

Definition burst_config : BucketConfig.t :=
  {| BucketConfig.Capacity := 1; BucketConfig.RefillRate := float64 1000000 |}.

Definition burst_store : InMemoryStore :=
  {| buckets := ∅; config := burst_config; cleanupAge := 0; lastCleanup := 0 |}.

Definition burst_world : World :=
  {| clock := burst_clock; ticks := 0; heap := ∅; store := burst_store |}.

(** The world after a first [Allow("client")]. *)
Definition burst_world_1 : World :=
  match rateLimiter.Allow "client" burst_world with
  | Some (_, w) => w
  | None => burst_world
  end.

(** A store that evicts after 100 ms, on a clock that advances 150 ms at
    every reading. *)
Definition slow_clock (i : nat) : Time := Z.of_nat i * 150000000.

Definition idle_store : InMemoryStore :=
  {| buckets := ∅;
     config := {| BucketConfig.Capacity := 10; BucketConfig.RefillRate := float64 1 |};
     cleanupAge := 100000000;
     lastCleanup := 0 |}.

Definition idle_world : World :=
  {| clock := slow_clock; ticks := 0; heap := ∅; store := idle_store |}.

(** The world after [GetBucket("user1")] and three tokens taken. *)
Definition idle_world_1 : World :=
  match (l ← GetBucket "user1";
         match l with
         | Ok l => method l (fun now => AllowN now 3)
         | Err _ => mret false
         end) idle_world with
  | Some (_, w) => w
  | None => idle_world
  end.

(** The same store with the least [Duration] as its cleanup age, and the
    world after [GetBucket("user1")]. *)
Definition min_age_store : InMemoryStore :=
  {| buckets := ∅; config := config idle_store; cleanupAge := minDuration;
     lastCleanup := 0 |}.

Definition min_age_world : World :=
  {| clock := slow_clock; ticks := 0; heap := ∅; store := min_age_store |}.

Definition min_age_world_1 : World :=
  match GetBucket "user1" min_age_world with
  | Some (_, w) => w
  | None => min_age_world
  end.

(** A store whose refill rate is not a number. *)
Definition nan_config : BucketConfig.t :=
  {| BucketConfig.Capacity := 10; BucketConfig.RefillRate := NaN |}.

(** ** Sequences of operations on the store and the limiter *)

(** What a caller does with the limiter and its store: [rl.Allow(key)],
    [store.GetBucket(key)] followed by one call on the returned bucket,
    [store.Cleanup()] and [store.Count()]. *)
Inductive Op : Type :=
| OpAllow (key : string)
| OpGetBucket (key : string) (c : option Call)
| OpCleanup
| OpCount.

Definition call_body (c : Call) (now : Time) (b : Bucket) : unit * Bucket :=
  (tt, after_call now c b).

Definition exec (o : Op) : M unit :=
  match o with
  | OpAllow key => _ ← rateLimiter.Allow key; mret tt
  | OpGetBucket key c =>
      r ← GetBucket key;
      match r, c with
      | Ok l, Some c => method l (call_body c)
      | _, _ => mret tt
      end
  | OpCleanup => _ ← Cleanup; mret tt
  | OpCount => _ ← Count; mret tt
  end.

Fixpoint exec_all (ops : list Op) : M unit :=
  match ops with
  | [] => mret tt
  | o :: rest => _ ← exec o; exec_all rest
  end.

(** The non-empty keys a sequence of operations names. *)
Fixpoint keys_of (ops : list Op) : gset string :=
  match ops with
  | [] => ∅
  | OpAllow key :: rest
  | OpGetBucket key _ :: rest =>
      (if decide (key = "") then ∅ else {[key]}) ∪ keys_of rest
  | _ :: rest => keys_of rest
  end.

Definition no_cleanup (ops : list Op) : Prop :=
  Forall (fun o => o <> OpCleanup) ops.

(** No two keys of the store share a bucket. *)
Definition distinct_buckets (w : World) : Prop :=
  forall k1 k2 e1 e2,
    buckets (store w) !! k1 = Some e1 ->
    buckets (store w) !! k2 = Some e2 ->
    bucket e1 = bucket e2 -> k1 = k2.

(** No entry has the empty key, and every bucket of the store has the
    capacity and the refill rate of the store's configuration. *)
Definition configured (w : World) : Prop :=
  forall k e, buckets (store w) !! k = Some e ->
    k <> "" /\
    exists b, heap w !! bucket e = Some b /\
      capacity b = BucketConfig.Capacity (config (store w)) /\
      refillRate b = BucketConfig.RefillRate (config (store w)).

Definition sound (w : World) : Prop :=
  wf w /\ distinct_buckets w /\ configured w.

(** A body that leaves the capacity and the refill rate of the bucket
    alone. *)
Definition well_behaved {A : Type} (body : Time -> Bucket -> A * Bucket) : Prop :=
  forall now b,
    capacity (snd (body now b)) = capacity b /\
    refillRate (snd (body now b)) = refillRate b.


(** A store that admits bursts of 10 and evicts after 100 ms, and a
    sequence of operations on it. *)
Definition example_ops : list Op :=
  [OpAllow "user1"; OpGetBucket "user2" (Some (CallAllowN 3)); OpAllow "";
   OpCount; OpAllow "user1"; OpCleanup; OpGetBucket "user3" None].


(** ** Wrapped errors *)

(** An error value of the rest of the package: an error of the kind
    modelled above, or [fmt.Errorf(format, ...)] with one [%w] verb, kept
    as its format, the error it wraps and its other arguments in order. *)
Inductive Error : Type :=
| Sentinel (e : error)
| Errorf (format : string) (wrapped : Error) (args : list Arg)
with Arg : Type :=
| AStr (s : string)
| AErr (e : Error).

(** [errors.Is(err, target)] for a sentinel [target] of errors.go. *)
Fixpoint error_Is (e : error) (target : error) : Prop :=
  e = target \/
  match e with
  | ErrCreateBucket _ => ErrStoreFailed = target
  | ErrGetBucket cause => error_Is cause target
  | _ => False
  end.

Fixpoint Is (err : Error) (target : error) : Prop :=
  match err with
  | Sentinel e => error_Is e target
  | Errorf _ wrapped _ => Is wrapped target
  end.

(** A value with an error, Go's [(T, error)] where the value is dropped
    on error. *)
Inductive Result (A : Type) : Type :=
| Success (a : A)
| Failure (e : Error).
Arguments Success {A} a.
Arguments Failure {A} e.

(** ** Configuration (config.go) *)

Module PolicyConfig.
Record t : Type := mk {
  Capacity : Z;
  RefillRate : binary64;
  Enabled : bool
}.

(** [p.Validate()]; [None] is the nil error. *)
Definition Validate (p : t) : option error :=
  if Capacity p <=? 0 then Some ErrNegativeCapacity
  else if fle (RefillRate p) (float64 0) then Some ErrNegativeRefillRate
  else None.

Definition ToBucketConfig (p : t) : BucketConfig.t :=
  {| BucketConfig.Capacity := Capacity p; BucketConfig.RefillRate := RefillRate p |}.
End PolicyConfig.

Module Config.
(** [Policies] is a Go map; the nil map and the empty map read alike and
    are both the empty map here. *)
Record t : Type := mk {
  Defaults : PolicyConfig.t;
  Policies : gmap string PolicyConfig.t;
  KeyExtractor : string;
  CleanupAge : string
}.

Definition NewConfig : t :=
  {| Defaults := {| PolicyConfig.Capacity := 100;
                    PolicyConfig.RefillRate := float64 10;
                    PolicyConfig.Enabled := true |};
     Policies := ∅;
     KeyExtractor := "ip";
     CleanupAge := "1h" |}.

(** The first invalid policy the [range] loop meets, with its error. *)
Fixpoint first_invalid (l : list (string * PolicyConfig.t)) : option (string * error) :=
  match l with
  | [] => None
  | (route, policy) :: rest =>
      match PolicyConfig.Validate policy with
      | Some err => Some (route, err)
      | None => first_invalid rest
      end
  end.

(** [c.Validate()].  The loop ranges over the map in an order Go does
    not fix; here it is the order of [map_to_list]. *)
Definition Validate (c : t) : option Error :=
  match PolicyConfig.Validate (Defaults c) with
  | Some err =>
      Some (Errorf "%w: invalid defaults: %v" (Sentinel ErrInvalidConfig)
              [AErr (Sentinel err)])
  | None =>
      match first_invalid (map_to_list (Policies c)) with
      | Some (route, err) =>
          Some (Errorf "%w: invalid policy for route %s: %v" (Sentinel ErrInvalidConfig)
                  [AStr route; AErr (Sentinel err)])
      | None => None
      end
  end.

Definition GetPolicy (c : t) (route : string) : PolicyConfig.t :=
  match Policies c !! route with
  | Some policy => policy
  | None => Defaults c
  end.

(** [c.SetPolicy(route, policy)]: the error and the configuration
    afterwards. *)
Definition SetPolicy (c : t) (route : string) (policy : PolicyConfig.t)
  : option Error * t :=
  match PolicyConfig.Validate policy with
  | Some err =>
      (Some (Errorf "%w: %v" (Sentinel ErrInvalidConfig) [AErr (Sentinel err)]), c)
  | None =>
      (None, {| Defaults := Defaults c;
                Policies := <[route := policy]> (Policies c);
                KeyExtractor := KeyExtractor c;
                CleanupAge := CleanupAge c |})
  end.

(** What [os.ReadFile] and [yaml.Unmarshal] give for a path: the message
    of the error of either step, or the parsed value. *)
Inductive File : Type :=
| ReadError (msg : string)
| ParseError (msg : string)
| Parsed (config : t).

(** [LoadConfigFromFile(path)], for the file at [path]. *)
Definition LoadConfigFromFile (file : File) : Result t :=
  match file with
  | ReadError msg =>
      Failure (Errorf "%w: failed to read config file: %v" (Sentinel ErrInvalidConfig)
                 [AStr msg])
  | ParseError msg =>
      Failure (Errorf "%w: failed to parse YAML: %v" (Sentinel ErrInvalidConfig)
                 [AStr msg])
  | Parsed config =>
      let config :=
        {| Defaults := Defaults config;
           Policies := Policies config;
           KeyExtractor := if decide (KeyExtractor config = "") then "ip"
                           else KeyExtractor config;
           CleanupAge := if decide (CleanupAge config = "") then "1h"
                         else CleanupAge config |} in
      match Validate config with
      | Some err => Failure err
      | None => Success config
      end
  end.
End Config.


(** ** Key extraction (key_extractor.go) *)

(** What the extractors read of an [*http.Request]: [r.RemoteAddr],
    [r.Header.Get(name)], the value of [r.Cookie(name)] when the cookie is
    there, and [r.URL.Path]. *)
Record Request : Type := mkRequest {
  RemoteAddr : string;
  Header_Get : string -> string;
  Cookie : string -> option string;
  URL_Path : string
}.

(** A [KeyExtractor] returns a key and an error ([None] is nil). *)
Definition KeyExtractor : Type := Request -> string * option Error.

(** [strings.Split(s, sep)] for a separator of one byte. *)
Fixpoint Split (sep : Ascii.ascii) (s : string) : list string :=
  match s with
  | EmptyString => [EmptyString]
  | String c s' =>
      if Ascii.eqb c sep then EmptyString :: Split sep s'
      else match Split sep s' with
           | p :: ps => String c p :: ps
           | [] => [String c EmptyString]
           end
  end.

(** [strings.SplitN(s, sep, 2)] for a separator of one byte: [s] cut at
    the first separator, or [s] alone. *)
Fixpoint SplitN2 (sep : Ascii.ascii) (s : string) : list string :=
  match s with
  | EmptyString => [EmptyString]
  | String c s' =>
      if Ascii.eqb c sep then [EmptyString; s']
      else match SplitN2 sep s' with
           | p :: ps => String c p :: ps
           | [] => [String c EmptyString]
           end
  end.

Section KeyExtractors.

(** Library functions the extractors call, taken as they are:
    [net.SplitHostPort] ([None] is an error), [strings.TrimSpace] and
    [strings.ToLower]. *)
Variable SplitHostPort : string -> option (string * string).
Variable TrimSpace : string -> string.
Variable ToLower : string -> string.

Definition key_error (format : string) (args : list Arg) : Error :=
  Errorf format (Sentinel ErrKeyExtractionFailed) args.

(** The fallback to [r.RemoteAddr] that [ExtractIP] and
    [ExtractIPWithProxy] share. *)
Definition remote_ip (r : Request) : string * option Error :=
  let ip :=
    match SplitHostPort (RemoteAddr r) with
    | Some (ip, _) => ip
    | None => RemoteAddr r
    end in
  if decide (ip = "") then ("", Some (key_error "%w: empty IP address" []))
  else ("ip:" +:+ ip, None).

Definition ExtractIP : KeyExtractor := remote_ip.

Definition ExtractIPWithProxy : KeyExtractor := fun r =>
  let xff := Header_Get r "X-Forwarded-For" in
  let forwarded :=
    if decide (xff = "") then None
    else match Split ","%char xff with
         | first :: _ =>
             let ip := TrimSpace first in
             if decide (ip = "") then None else Some ip
         | [] => None
         end in
  match forwarded with
  | Some ip => ("ip:" +:+ ip, None)
  | None =>
      let xri := Header_Get r "X-Real-IP" in
      if decide (xri = "") then remote_ip r
      else ("ip:" +:+ xri, None)
  end.

Definition ExtractHeader (headerName : string) : KeyExtractor := fun r =>
  let value := Header_Get r headerName in
  if decide (value = "") then
    ("", Some (key_error "%w: header %s not found or empty" [AStr headerName]))
  else ("header:" +:+ headerName +:+ ":" +:+ value, None).

Definition ExtractBearer : KeyExtractor := fun r =>
  let auth := Header_Get r "Authorization" in
  if decide (auth = "") then
    ("", Some (key_error "%w: Authorization header not found" []))
  else
    match SplitN2 " "%char auth with
    | [scheme; token] =>
        if decide (ToLower scheme = "bearer") then
          if decide (token = "") then
            ("", Some (key_error "%w: empty bearer token" []))
          else ("bearer:" +:+ token, None)
        else ("", Some (key_error "%w: invalid Authorization header format" []))
    | _ => ("", Some (key_error "%w: invalid Authorization header format" []))
    end.

(** The loop of [ExtractComposite]: the key of the first extractor that
    gives a non-empty key without error, else the last error seen. *)
Fixpoint try_extractors (extractors : list KeyExtractor) (r : Request)
  (lastErr : option Error) : string * option Error :=
  match extractors with
  | [] =>
      match lastErr with
      | Some err => ("", Some (key_error "%w: all extractors failed: %v" [AErr err]))
      | None => ("", Some (key_error "%w: all extractors returned empty key" []))
      end
  | extractor :: rest =>
      match extractor r with
      | (key, None) =>
          if decide (key = "") then try_extractors rest r None
          else (key, None)
      | (_, Some err) => try_extractors rest r (Some err)
      end
  end.

Definition ExtractComposite (extractors : list KeyExtractor) : KeyExtractor :=
  match extractors with
  | [] => fun _ => ("", Some (key_error "%w: no extractors provided" []))
  | _ => fun r => try_extractors extractors r None
  end.

Definition ExtractStatic (key : string) : KeyExtractor := fun _ =>
  if decide (key = "") then ("", Some (key_error "%w: static key is empty" []))
  else (key, None).

(** [cookie_error] is the text of the error of [r.Cookie]. *)
Definition ExtractCookie (cookie_error : string) (cookieName : string) : KeyExtractor :=
  fun r =>
    match Cookie r cookieName with
    | None =>
        ("", Some (key_error "%w: cookie %s not found: %v"
                     [AStr cookieName; AStr cookie_error]))
    | Some value =>
        if decide (value = "") then
          ("", Some (key_error "%w: cookie %s has empty value" [AStr cookieName]))
        else ("cookie:" +:+ cookieName +:+ ":" +:+ value, None)
    end.

Definition config_error (format : string) (args : list Arg) : Error :=
  Errorf format (Sentinel ErrInvalidConfig) args.

Definition ParseKeyExtractorConfig (cookie_error : string) (config : string)
  : Result KeyExtractor :=
  let parts := SplitN2 ":"%char config in
  match parts with
  | [] => Failure (config_error "%w: unknown key extractor type: %s" [AStr ""])
  | kind :: _ =>
      if decide (kind = "ip") then Success ExtractIP
      else if decide (kind = "ip-proxy") then Success ExtractIPWithProxy
      else if decide (kind = "header") then
        match parts with
        | [_; name] => Success (ExtractHeader name)
        | _ => Failure (config_error
                 "%w: header extractor requires format 'header:HeaderName'" [])
        end
      else if decide (kind = "bearer") then Success ExtractBearer
      else if decide (kind = "cookie") then
        match parts with
        | [_; name] => Success (ExtractCookie cookie_error name)
        | _ => Failure (config_error
                 "%w: cookie extractor requires format 'cookie:CookieName'" [])
        end
      else if decide (kind = "static") then
        match parts with
        | [_; key] => Success (ExtractStatic key)
        | _ => Failure (config_error
                 "%w: static extractor requires format 'static:key'" [])
        end
      else Failure (config_error "%w: unknown key extractor type: %s" [AStr kind])
  end.

End KeyExtractors.

(** An extractor's answer is in order: a non-empty key and no error, or
    no key and an error that wraps [ErrKeyExtractionFailed]. *)
Definition key_or_error (res : string * option Error) : Prop :=
  (exists key, key <> "" /\ res = (key, None)) \/
  (exists err, res = ("", Some err) /\ Is err ErrKeyExtractionFailed).

(** The extractor gave a usable key. *)
Definition succeeded (res : string * option Error) : Prop :=
  snd res = None /\ fst res <> "".


(** ** The limiter's construction, requests and middleware (limiter.go,
    options.go) *)







Module limiter.

(** The [rateLimiter] struct; [store] is the store the limiter was built
    with ([None] is nil), which from then on is the store of the world. *)
Record t : Type := mk {
  store : option InMemoryStore;
  config : Config.t;
  keyExtractor : option KeyExtractor;
  routeExtractor : string -> string;
  cleanupAge : Duration;
  cleanupInterval : Duration
}.

(** An [Option]: the error it returns and the limiter it leaves. *)
Definition Option : Type := t -> option Error * t.

Definition WithStore (s : option InMemoryStore) : Option := fun rl =>
  match s with
  | None => (Some (config_error "%w: store cannot be nil" []), rl)
  | Some s =>
      (None, {| store := Some s; config := config rl; keyExtractor := keyExtractor rl;
                routeExtractor := routeExtractor rl; cleanupAge := cleanupAge rl;
                cleanupInterval := cleanupInterval rl |})
  end.

Definition WithConfig (c : option Config.t) : Option := fun rl =>
  match c with
  | None => (Some (config_error "%w: config cannot be nil" []), rl)
  | Some c =>
      match Config.Validate c with
      | Some err => (Some err, rl)
      | None =>
          (None, {| store := store rl; config := c; keyExtractor := keyExtractor rl;
                    routeExtractor := routeExtractor rl; cleanupAge := cleanupAge rl;
                    cleanupInterval := cleanupInterval rl |})
      end
  end.

(** [WithConfigFile(path)], for the file at [path]. *)
Definition WithConfigFile (file : Config.File) : Option := fun rl =>
  match Config.LoadConfigFromFile file with
  | Failure err => (Some err, rl)
  | Success c =>
      (None, {| store := store rl; config := c; keyExtractor := keyExtractor rl;
                routeExtractor := routeExtractor rl; cleanupAge := cleanupAge rl;
                cleanupInterval := cleanupInterval rl |})
  end.

Definition WithKeyExtractor (extractor : option KeyExtractor) : Option := fun rl =>
  match extractor with
  | None => (Some (config_error "%w: key extractor cannot be nil" []), rl)
  | Some extractor =>
      (None, {| store := store rl; config := config rl; keyExtractor := Some extractor;
                routeExtractor := routeExtractor rl; cleanupAge := cleanupAge rl;
                cleanupInterval := cleanupInterval rl |})
  end.

Definition WithDefaults (capacity : Z) (refillRate : binary64) : Option := fun rl =>
  if capacity <=? 0 then (Some (Sentinel ErrNegativeCapacity), rl)
  else if fle refillRate (float64 0) then (Some (Sentinel ErrNegativeRefillRate), rl)
  else
    (None, {| store := store rl;
              config := {| Config.Defaults :=
                             {| PolicyConfig.Capacity := capacity;
                                PolicyConfig.RefillRate := refillRate;
                                PolicyConfig.Enabled := true |};
                           Config.Policies := ∅;
                           Config.KeyExtractor := "ip";
                           Config.CleanupAge := "1h" |};
              keyExtractor := keyExtractor rl;
              routeExtractor := routeExtractor rl; cleanupAge := cleanupAge rl;
              cleanupInterval := cleanupInterval rl |}).

Definition WithCleanupAge (age : Duration) : Option := fun rl =>
  (None, {| store := store rl; config := config rl; keyExtractor := keyExtractor rl;
            routeExtractor := routeExtractor rl; cleanupAge := age;
            cleanupInterval := cleanupInterval rl |}).

Definition WithCleanupInterval (interval : Duration) : Option := fun rl =>
  if interval <? 0 then
    (Some (config_error "%w: cleanup interval cannot be negative" []), rl)
  else
    (None, {| store := store rl; config := config rl; keyExtractor := keyExtractor rl;
              routeExtractor := routeExtractor rl; cleanupAge := cleanupAge rl;
              cleanupInterval := interval |}).

Definition WithRouteExtractor (fn : option (string -> string)) : Option := fun rl =>
  match fn with
  | None => (Some (config_error "%w: route extractor cannot be nil" []), rl)
  | Some fn =>
      (None, {| store := store rl; config := config rl; keyExtractor := keyExtractor rl;
                routeExtractor := fn; cleanupAge := cleanupAge rl;
                cleanupInterval := cleanupInterval rl |})
  end.

(** The loop over the options of [NewRateLimiter]. *)
Fixpoint apply_options (opts : list Option) (rl : t) : Result t :=
  match opts with
  | [] => Success rl
  | opt :: rest =>
      match opt rl with
      | (Some err, _) => Failure (Errorf "failed to apply option: %w" err [])
      | (None, rl') => apply_options rest rl'
      end
  end.

Section Construction.

Variable SplitHostPort : string -> option (string * string).
Variable TrimSpace : string -> string.
Variable ToLower : string -> string.
Variable cookie_error : string.

(** [NewRateLimiter(opts...)]; [now] is the reading of the clock when the
    default store is created. *)
Definition NewRateLimiter (now : Time) (opts : list Option) : Result t :=
  let rl := {| store := None;
               config := Config.NewConfig;
               keyExtractor := None;
               routeExtractor := fun path => path;
               cleanupAge := 1 * (3600 * Second);
               cleanupInterval := 10 * (60 * Second) |} in
  match apply_options opts rl with
  | Failure err => Failure err
  | Success rl =>
      let extractor :=
        match keyExtractor rl with
        | Some extractor => Success extractor
        | None =>
            match ParseKeyExtractorConfig SplitHostPort TrimSpace ToLower cookie_error
                    (Config.KeyExtractor (config rl)) with
            | Failure err =>
                Failure (Errorf "failed to parse key extractor config: %w" err [])
            | Success extractor => Success extractor
            end
        end in
      match extractor with
      | Failure err => Failure err
      | Success extractor =>
          let created :=
            match store rl with
            | Some s => Success s
            | None =>
                match NewInMemoryStore now
                        (PolicyConfig.ToBucketConfig (Config.Defaults (config rl)))
                        (cleanupAge rl) with
                | Err err =>
                    Failure (Errorf "failed to create default store: %w" (Sentinel err) [])
                | Ok s => Success s
                end
            end in
          match created with
          | Failure err => Failure err
          | Success s =>
              Success {| store := Some s; config := config rl;
                         keyExtractor := Some extractor;
                         routeExtractor := routeExtractor rl;
                         cleanupAge := cleanupAge rl;
                         cleanupInterval := cleanupInterval rl |}
          end
      end
  end.

End Construction.

(** [rl.AllowRequest(r)], for a limiter whose store is the world's store.
    Calling a nil key extractor panics. *)
Definition AllowRequest (rl : t) (r : Request) : M (Result Decision.t) :=
  match keyExtractor rl with
  | None => fun _ => None
  | Some extractor =>
      match extractor r with
      | (_, Some err) => mret (Failure (Errorf "key extraction failed: %w" err []))
      | (key, None) =>
          let route := routeExtractor rl (URL_Path r) in
          let policy := Config.GetPolicy (config rl) route in
          if negb (PolicyConfig.Enabled policy) then
            mret (Success {| Decision.Allowed := true;
                             Decision.Remaining := PolicyConfig.Capacity policy;
                             Decision.Limit := PolicyConfig.Capacity policy;
                             Decision.RetryAfter := 0;
                             Decision.Key := key;
                             Decision.Route := route |})
          else
            d ← rateLimiter.Allow key;
            match d with
            | Err err => mret (Failure (Sentinel err))
            | Ok decision =>
                mret (Success {| Decision.Allowed := Decision.Allowed decision;
                                 Decision.Remaining := Decision.Remaining decision;
                                 Decision.Limit := Decision.Limit decision;
                                 Decision.RetryAfter := Decision.RetryAfter decision;
                                 Decision.Key := Decision.Key decision;
                                 Decision.Route := route |})
            end
      end
  end.


End limiter.

(** A policy that passes the two tests of [Validate]. *)
Definition policy_ok (p : PolicyConfig.t) : Prop :=
  0 < PolicyConfig.Capacity p /\
  fle (PolicyConfig.RefillRate p) (float64 0) = false.

(** The limiter under construction has a configuration that [Validate]
    accepts and, if it has a store, a store whose configuration passes
    the tests of [NewInMemoryStore]. *)
Definition limiter_ok (rl : limiter.t) : Prop :=
  Config.Validate (limiter.config rl) = None /\
  forall s, limiter.store rl = Some s -> store_ok s.

(** An option that keeps the limiter in order and, when it fails, leaves
    it as it was. *)
Definition keeps_ok (opt : limiter.Option) : Prop :=
  forall rl,
    (forall rl', opt rl = (None, rl') -> limiter_ok rl -> limiter_ok rl') /\
    (forall err rl', opt rl = (Some err, rl') -> rl' = rl).

(** A limiter on the example store that limits all clients together, a
    request, and a route without limit. *)
Definition example_limiter : limiter.t :=
  {| limiter.store := Some idle_store;
     limiter.config :=
       {| Config.Defaults := Config.Defaults Config.NewConfig;
          Config.Policies :=
            {[ "/health" := {| PolicyConfig.Capacity := 5;
                               PolicyConfig.RefillRate := float64 1;
                               PolicyConfig.Enabled := false |} ]};
          Config.KeyExtractor := "static:global";
          Config.CleanupAge := "1h" |};
     limiter.keyExtractor := Some (ExtractStatic "global");
     limiter.routeExtractor := fun path => path;
     limiter.cleanupAge := 3600 * Second;
     limiter.cleanupInterval := 600 * Second |}.

Definition example_request (path : string) : Request :=
  {| RemoteAddr := "192.168.1.1:12345";
     Header_Get := fun _ => "";
     Cookie := fun _ => None;
     URL_Path := path |}.


(** * Facts *)

(** ** Time *)


Lemma Sub_in_range (t u : Time) :
  minDuration <= t - u <= maxDuration -> Sub t u = t - u.
Proof.
  unfold Sub. intros H. repeat case_match; lia.
Qed.


(** ** Rounding keeps the sign *)

Lemma shr_1_bounds (r : shr_record) :
  0 <= shr_m r -> 0 <= shr_m (shr_1 r) <= shr_m r.
Proof.
  destruct r as [m r s]. cbn [shr_m]. intros H.
  destruct m as [|[p|p|]|p]; cbn [shr_1 shr_m]; lia.
Qed.

Lemma iter_shr_1_bounds (p : positive) : forall r : shr_record,
  0 <= shr_m r -> 0 <= shr_m (SpecFloat.iter_pos shr_1 p r) <= shr_m r.
Proof.
  induction p as [p IH|p IH|]; intros r H; cbn [SpecFloat.iter_pos].
  - pose proof (shr_1_bounds r H) as H1.
    pose proof (IH (shr_1 r) (proj1 H1)) as H2.
    pose proof (IH _ (proj1 H2)) as H3. lia.
  - pose proof (IH r H) as H2.
    pose proof (IH _ (proj1 H2)) as H3. lia.
  - apply shr_1_bounds, H.
Qed.

Lemma shr_record_of_loc_m (m : Z) (l : location) : shr_m (shr_record_of_loc m l) = m.
Proof. destruct l as [|[]]; reflexivity. Qed.

Lemma shr_bounds (r : shr_record) (e n : Z) :
  0 <= shr_m r -> 0 <= shr_m (fst (shr r e n)) <= shr_m r.
Proof.
  intros H. destruct n as [|p|p]; cbn [shr fst]; try lia.
  apply iter_shr_1_bounds, H.
Qed.

Lemma shr_fexp_bounds (m e : Z) (l : location) :
  0 <= m -> 0 <= shr_m (fst (shr_fexp 53 1024 m e l)) <= m.
Proof.
  intros H. unfold shr_fexp.
  pose proof (shr_bounds (shr_record_of_loc m l) e
    (fexp 53 1024 (Zdigits2 m + e) - e)) as Hb.
  rewrite shr_record_of_loc_m in Hb. apply Hb, H.
Qed.

Lemma round_nearest_even_bounds (m : Z) (l : location) :
  m <= round_nearest_even m l <= m + 1.
Proof.
  destruct l as [|[]]; cbn [round_nearest_even]; try lia.
  destruct (Z.even m); lia.
Qed.

Lemma binary_round_aux_sign (s : bool) (m e : Z) (l : location) :
  0 <= m -> has_sign s (binary_round_aux 53 1024 s m e l).
Proof.
  intros H. unfold binary_round_aux.
  destruct (shr_fexp 53 1024 m e l) as [r1 e1] eqn:E1.
  pose proof (shr_fexp_bounds m e l H) as H1. rewrite E1 in H1. cbn [fst] in H1.
  pose proof (round_nearest_even_bounds (shr_m r1) (loc_of_shr_record r1)) as H2.
  destruct (shr_fexp 53 1024 _ e1 loc_Exact) as [r2 e2] eqn:E2.
  pose proof (shr_fexp_bounds (round_nearest_even (shr_m r1) (loc_of_shr_record r1))
                e1 loc_Exact ltac:(lia)) as H3.
  rewrite E2 in H3. cbn [fst] in H3.
  destruct (shr_m r2) as [|p|p]; [reflexivity| |lia].
  destruct (e2 <=? 1024 - 53); reflexivity.
Qed.

Lemma binary_round_sign (s : bool) (m : positive) (e : Z) :
  has_sign s (binary_round 53 1024 s m e).
Proof.
  unfold binary_round. destruct (shl_align _ _ _) as [mz ez].
  apply binary_round_aux_sign. lia.
Qed.

Lemma has_sign_nonneg (x : binary64) : has_sign false x -> nonneg x.
Proof. destruct x; simpl; auto. Qed.

Lemma has_sign_nonpos (x : binary64) : has_sign true x -> nonpos x.
Proof. destruct x; simpl; auto. Qed.

Lemma float64_0 : float64 0 = S754_zero false.
Proof. reflexivity. Qed.

Lemma float64_nonneg (n : Z) : 0 <= n -> nonneg (float64 n).
Proof.
  intros H. destruct n as [|p|p]; [exact I| |lia].
  apply has_sign_nonneg. apply binary_round_sign.
Qed.

Lemma float64_nonpos (n : Z) : n <= 0 -> nonpos (float64 n).
Proof.
  intros H. destruct n as [|p|p]; [exact I|lia|].
  apply has_sign_nonpos. apply binary_round_sign.
Qed.

(** ** Negation *)






(** ** Comparisons *)



Lemma SFcompare_refl (x : binary64) : x <> NaN -> SFcompare x x = Some Eq.
Proof.
  destruct x as [sx|sx| |sx mx ex]; cbn [SFcompare]; intros H.
  - reflexivity.
  - destruct sx; reflexivity.
  - contradiction.
  - rewrite Z.compare_refl.
    change (Pos.compare_cont Eq mx mx) with (mx ?= mx)%positive.
    rewrite Pos.compare_refl. destruct sx; reflexivity.
Qed.



Lemma fle_refl (x : binary64) : x <> NaN -> fle x x = true.
Proof. intros H. unfold fle, SFleb. rewrite SFcompare_refl by exact H. reflexivity. Qed.




(** ** Arithmetic keeps the sign *)






(** ** The conversion of an [int64] does not overflow *)

Lemma digits2_pos_bounds (p : positive) :
  2 ^ (Zpos (digits2_pos p) - 1) <= Zpos p < 2 ^ Zpos (digits2_pos p).
Proof.
  induction p as [p IH|p IH|]; cbn [digits2_pos].
  - rewrite Pos2Z.inj_succ.
    replace (Z.succ (Zpos (digits2_pos p)) - 1) with (Z.succ (Zpos (digits2_pos p) - 1)) by lia.
    rewrite !Z.pow_succ_r by lia. lia.
  - rewrite Pos2Z.inj_succ.
    replace (Z.succ (Zpos (digits2_pos p)) - 1) with (Z.succ (Zpos (digits2_pos p) - 1)) by lia.
    rewrite !Z.pow_succ_r by lia. lia.
  - cbn. lia.
Qed.

Lemma Zdigits2_value (m : Z) : 0 <= m -> m < 2 ^ Zdigits2 m.
Proof.
  intros H. destruct m as [|p|p]; [cbn; lia| |lia].
  apply digits2_pos_bounds.
Qed.

Lemma Zdigits2_le (m k : Z) : 0 <= k -> 0 <= m < 2 ^ k -> 0 <= Zdigits2 m <= k.
Proof.
  intros Hk Hm. destruct m as [|p|p]; [cbn; lia| |lia].
  cbn [Zdigits2]. split; [lia|].
  pose proof (digits2_pos_bounds p) as [H _].
  assert (Hlt : 2 ^ (Zpos (digits2_pos p) - 1) < 2 ^ k) by lia.
  apply Z.pow_lt_mono_r_iff in Hlt; lia.
Qed.

Lemma digits2_pos_iter_xO (p k : positive) :
  digits2_pos (Pos.iter xO p k) = (digits2_pos p + k)%positive.
Proof.
  induction k as [|k IH] using Pos.peano_ind.
  - cbn. lia.
  - rewrite Pos.iter_succ. cbn [digits2_pos]. rewrite IH. lia.
Qed.

Lemma shr_fexp_exponent (m e : Z) (l : location) :
  snd (shr_fexp 53 1024 m e l) = Z.max e (fexp 53 1024 (Zdigits2 m + e)).
Proof.
  unfold shr_fexp, shr.
  destruct (fexp 53 1024 (Zdigits2 m + e) - e) as [|p|p] eqn:E; cbn [snd]; lia.
Qed.

Lemma binary_round_aux_finite (s : bool) (m e : Z) (l : location) :
  0 <= m -> - 100 <= e <= 11 -> Zdigits2 m + e <= 64 ->
  finite (binary_round_aux 53 1024 s m e l).
Proof.
  intros Hm He Hd. unfold binary_round_aux.
  pose proof (shr_fexp_bounds m e l Hm) as H1.
  pose proof (shr_fexp_exponent m e l) as X1.
  destruct (shr_fexp 53 1024 m e l) as [r1 e1]. cbn [fst snd] in H1, X1.
  set (mr := round_nearest_even (shr_m r1) (loc_of_shr_record r1)).
  pose proof (round_nearest_even_bounds (shr_m r1) (loc_of_shr_record r1)) as H2.
  fold mr in H2.
  pose proof (shr_fexp_exponent mr e1 loc_Exact) as X2.
  pose proof (shr_fexp_bounds mr e1 loc_Exact ltac:(lia)) as H3.
  destruct (shr_fexp 53 1024 mr e1 loc_Exact) as [r2 e2]. cbn [fst snd] in X2, H3.
  assert (Hdm : 0 <= Zdigits2 m <= 164).
  { split; [destruct m; cbn; lia | lia]. }
  assert (Hdr : 0 <= Zdigits2 mr <= Zdigits2 m + 1).
  { apply Zdigits2_le; [lia|].
    pose proof (Zdigits2_value m Hm).
    rewrite Z.pow_add_r by lia. lia. }
  unfold fexp, emin in X1, X2.
  destruct (shr_m r2); [exact I| |lia].
  destruct (e2 <=? 1024 - 53) eqn:E; [exact I|].
  apply Z.leb_gt in E. lia.
Qed.

Lemma float64_finite (n : Z) : - 2 ^ 64 < n < 2 ^ 64 -> finite (float64 n).
Proof.
  intros Hn.
  assert (H : forall s (p : positive), Zpos p < 2 ^ 64 ->
              finite (binary_round 53 1024 s p 0)).
  { intros s p Hp. unfold binary_round, shl_align.
    pose proof (Zdigits2_le (Zpos p) 64 ltac:(lia) ltac:(lia)) as Hd.
    cbn [Zdigits2] in Hd.
    destruct (fexp 53 1024 (Zpos (digits2_pos p) + 0) - 0) as [|d|d] eqn:E.
    - apply binary_round_aux_finite; cbn [Zdigits2]; lia.
    - apply binary_round_aux_finite; cbn [Zdigits2]; lia.
    - unfold fexp, emin in E |- *.
      apply binary_round_aux_finite; cbn [Zdigits2]; try lia.
      rewrite digits2_pos_iter_xO. lia. }
  destruct n as [|p|p]; [exact I| |]; apply H; lia.
Qed.

Lemma float64_int64 (n : Z) :
  is_int64 n -> finite (float64 n) /\ (0 <= n -> nonneg (float64 n)) /\ (n <= 0 -> nonpos (float64 n)).
Proof.
  intros [H1 H2]. split; [apply float64_finite; lia|].
  split; [apply float64_nonneg | apply float64_nonpos].
Qed.

(** ** The conversion of a non-zero [int64] is not zero *)








(** ** Capping: [math.Min] against the comparison *)



(** ** The refill *)

(** Reduce projections of explicit records, leaving [refill] folded. *)
Ltac proj := cbn [fst snd tokens capacity refillRate lastRefillTime] in *.

Lemma refill_fields now b :
  capacity (refill now b) = capacity b /\
  refillRate (refill now b) = refillRate b /\
  lastRefillTime (refill now b) = now.
Proof. unfold refill. simpl. auto. Qed.





Lemma RetryAfter_state now b : snd (RetryAfter now b) = refill now b.
Proof. unfold RetryAfter. destruct (fle _ _); reflexivity. Qed.


(** ** Construction *)


(** ** A rate that is not a number *)

(** C1 (what the code does where the invariant fails).  [NewBucket]
    accepts a refill rate that is NaN, since [NaN <= 0] is false; the
    first refill then makes the tokens NaN, for which neither
    [0 <= tokens] nor [tokens <= capacity] holds.  It accepts the positive
    infinity as well, and a refill at the construction instant, zero
    seconds times infinity, gives NaN again.  And with the capacity
    [2^53 + 3] the bucket is created with [float64(capacity) = 2^53 + 4]
    tokens, one more than the capacity. *)
Theorem C1_NaN_rate_breaks_the_bounds :
  (exists b, NewBucket 0 10 NaN = Ok b /\
     tokens (snd (Allow 1000000000 b)) = NaN /\
     fle (float64 0) (tokens (snd (Allow 1000000000 b))) = false /\
     fle (tokens (snd (Allow 1000000000 b))) (float64 (capacity b)) = false) /\
  (exists b, NewBucket 0 10 Inf = Ok b /\
     tokens (snd (Allow 0 b)) = NaN) /\
  (exists b, NewBucket 0 (2 ^ 53 + 3) (float64 1) = Ok b /\
     (exact (tokens b) == inject_Z (capacity b + 1))%Q).
Proof.
  split; [|split].
  - eexists. split; [reflexivity|]. vm_compute. auto.
  - eexists. split; [reflexivity|]. vm_compute. auto.
  - eexists. split; [reflexivity|]. vm_compute. reflexivity.
Qed.

(** ** Refill, then consume *)

Lemma AllowN_cases now n b :
  (fle (float64 n) (tokens (refill now b)) = true /\
   AllowN now n b =
     (true, {| capacity := capacity b;
               tokens := fsub (tokens (refill now b)) (float64 n);
               refillRate := refillRate b;
               lastRefillTime := now |})) \/
  (fle (float64 n) (tokens (refill now b)) = false /\
   AllowN now n b = (false, refill now b)).
Proof.
  unfold AllowN.
  destruct (fle (float64 n) (tokens (refill now b))) eqn:E; [left|right];
    (split; [reflexivity|]); reflexivity.
Qed.

Lemma AllowN_time now n b : lastRefillTime (snd (AllowN now n b)) = now.
Proof.
  destruct (AllowN_cases now n b) as [[_ ->]|[_ ->]]; reflexivity.
Qed.

Lemma AllowN_capacity now n b : capacity (snd (AllowN now n b)) = capacity b.
Proof.
  destruct (AllowN_cases now n b) as [[_ ->]|[_ ->]]; reflexivity.
Qed.

Lemma AllowN_refillRate now n b : refillRate (snd (AllowN now n b)) = refillRate b.
Proof.
  destruct (AllowN_cases now n b) as [[_ ->]|[_ ->]]; reflexivity.
Qed.



(** ** The wait before the next token *)

Lemma Qpower_2_pos (p : positive) : (Qpower 2 (Zpos p) == inject_Z (2 ^ Zpos p))%Q.
Proof.
  rewrite (Zpower_Qpower 2 (Zpos p)) by lia. reflexivity.
Qed.

Lemma exact_floor (m : positive) (e : Z) :
  Qfloor (exact (S754_finite false m e)) = truncate false m e.
Proof.
  unfold exact, truncate.
  destruct e as [|p|p].
  - cbn [Z.leb Z.compare Qpower]. rewrite Z.pow_0_r, Z.mul_1_r.
    rewrite Qmult_1_r. apply Qfloor_Z.
  - replace (0 <=? Zpos p) with true by (symmetry; apply Z.leb_le; lia).
    rewrite Qpower_2_pos. rewrite <- inject_Z_mult. apply Qfloor_Z.
  - replace (0 <=? Zneg p) with false by (symmetry; apply Z.leb_gt; lia).
    change (- Zneg p) with (Zpos p).
    change (Qpower 2 (Zneg p)) with (/ Qpower 2 (Zpos p))%Q.
    rewrite Qpower_2_pos.
    rewrite <- Pos2Z.inj_pow.
    change (inject_Z (Zpos m) * / inject_Z (Zpos (2 ^ p)))%Q
      with (inject_Z (Zpos m) / inject_Z (Zpos (2 ^ p)))%Q.
    rewrite <- Qmake_Qdiv. reflexivity.
Qed.

(** [int64(x)] drops the fraction of a value that is not negative and
    fits. *)
Lemma int64_floor (x : binary64) :
  nonneg x -> finite x -> (exact x < inject_Z (2 ^ 63))%Q ->
  int64 x = Qfloor (exact x).
Proof.
  destruct x as [s|s| |s m e]; cbn [nonneg finite]; try contradiction.
  - intros _ _ _. reflexivity.
  - intros -> _ Hlt. unfold int64.
    rewrite <- exact_floor.
    set (q := exact (S754_finite false m e)) in *.
    assert (H0 : 0 <= Qfloor q).
    { change 0 with (Qfloor 0). apply Qfloor_resp_le.
      unfold q, exact. apply Qmult_le_0_compat; [discriminate|].
      apply Qpower_pos. discriminate. }
    assert (H1 : Qfloor q < 2 ^ 63).
    { rewrite Zlt_Qlt. eapply Qle_lt_trans; [apply Qfloor_le | exact Hlt]. }
    replace (- 2 ^ 63 <=? Qfloor q) with true by (symmetry; apply Z.leb_le; lia).
    replace (Qfloor q <? 2 ^ 63) with true by (symmetry; apply Z.ltb_lt; lia).
    reflexivity.
Qed.

(** C4 (numerical, amended).  [RetryAfter()] refills first.  With a token
    available, [1 <= tokens], it returns zero.  Otherwise it computes
    [(1 - tokens) / refillRate * 1e9] in [float64], each operation rounded
    on its own, and converts that number of nanoseconds to a [Duration]:
    when the number is not negative and fits, the result is its integer
    part, the fraction of a nanosecond dropped. *)
Theorem C4_RetryAfter_truncates_to_nanoseconds (now : Time) (b : Bucket) :
  let t := tokens (refill now b) in
  let wait := fmul (fdiv (fsub (float64 1) t) (refillRate b)) (float64 1000000000) in
  snd (RetryAfter now b) = refill now b /\
  (fle (float64 1) t = true -> fst (RetryAfter now b) = 0) /\
  (fle (float64 1) t = false -> fst (RetryAfter now b) = int64 wait) /\
  (fle (float64 1) t = false ->
   nonneg wait -> finite wait -> (exact wait < inject_Z (2 ^ 63))%Q ->
   fst (RetryAfter now b) = Qfloor (exact wait)).
Proof.
  intros t wait.
  split; [apply RetryAfter_state|].
  unfold RetryAfter. fold t.
  destruct (refill_fields now b) as (_ & -> & _).
  destruct (fle (float64 1) t); cbn [fst].
  - repeat split; try reflexivity; discriminate.
  - split; [discriminate|]. split; [reflexivity|].
    intros _ H0 Hf Hlt. apply int64_floor; assumption.
Qed.

Lemma C4_RetryAfter_truncates_to_nanoseconds_witness :
  fst (RetryAfter 0 fast_bucket_drained) = 976562 /\
  fst (RetryAfter 0 fast_bucket_drained) =
    Qfloor (exact (fmul (fdiv (fsub (float64 1) (tokens (refill 0 fast_bucket_drained)))
                              (refillRate fast_bucket_drained))
                        (float64 1000000000))).
Proof.
  destruct (C4_RetryAfter_truncates_to_nanoseconds 0 fast_bucket_drained)
    as (_ & _ & _ & H).
  split; [vm_compute; reflexivity|].
  apply H.
  - vm_compute. reflexivity.
  - vm_compute. reflexivity.
  - vm_compute. exact I.
  - vm_compute. reflexivity.
Defined.

(** The claim's milliseconds fail: a drained bucket refilled at 1024
    tokens per second waits 976562 ns, not 1 ms. *)
Lemma C4_counterexample :
  valid fast_bucket_drained /\
  fst (RetryAfter 0 fast_bucket_drained) = 976562 /\
  spec_RetryAfter (refill 0 fast_bucket_drained) = 1000000 /\
  fst (RetryAfter 0 fast_bucket_drained) <> spec_RetryAfter (refill 0 fast_bucket_drained).
Proof.
  split; [unfold valid; vm_compute; repeat split; congruence|].
  split; [vm_compute; reflexivity|].
  split; [vm_compute; reflexivity|].
  vm_compute. discriminate.
Qed.

(** ** The two package variants *)



(** ** Amounts that are not positive *)



(** ** Running the pointer-level operations *)

Ltac run := unfold mbind, M_bind, mret, M_ret, time_Now, load, save, alloc,
  get_store, put_store; cbn [clock ticks heap store].

Lemma method_run {A : Type} (l : loc) (body : Time -> Bucket -> A * Bucket)
  (w : World) (b : Bucket) :
  heap w !! l = Some b ->
  method l body w =
    Some (fst (body (clock w (ticks w)) b),
          at_tick w (S (ticks w)) (<[l := snd (body (clock w (ticks w)) b)]> (heap w)) (store w)).
Proof.
  intros H. unfold method. run. rewrite H.
  destruct (body (clock w (ticks w)) b) as [r b']. reflexivity.
Qed.

Lemma getter_run {A : Type} (l : loc) (field : Bucket -> A) (w : World) (b : Bucket) :
  heap w !! l = Some b -> getter l field w = Some (field b, w).
Proof. intros H. unfold getter. run. rewrite H. reflexivity. Qed.

Lemma bind_run {A B : Type} (m : M A) (f : A -> M B) (w w' : World) (a : A) :
  m w = Some (a, w') -> (x ← m; f x) w = f a w'.
Proof. intros E. unfold mbind, M_bind. rewrite E. reflexivity. Qed.

Lemma GetBucket_empty_key (w : World) : GetBucket "" w = Some (Err ErrInvalidKey, w).
Proof. reflexivity. Qed.

Lemma GetBucket_existing (w : World) (key : string) (e : bucketEntry) :
  key <> "" ->
  buckets (store w) !! key = Some e ->
  GetBucket key w =
    Some (Ok (bucket e),
          at_tick w (S (ticks w)) (heap w)
            (with_entry (store w) key (bucket e) (clock w (ticks w)))).
Proof.
  intros Hk He. unfold GetBucket.
  destruct (decide (key = "")) as [|_]; [contradiction|].
  run. rewrite He. reflexivity.
Qed.

Lemma GetBucket_new (w : World) (key : string) :
  key <> "" ->
  store_ok (store w) ->
  buckets (store w) !! key = None ->
  GetBucket key w =
    Some (Ok (fresh (dom (heap w))),
          at_tick w (S (S (ticks w)))
            (<[fresh (dom (heap w)) :=
                 {| capacity := BucketConfig.Capacity (config (store w));
                    tokens := float64 (BucketConfig.Capacity (config (store w)));
                    refillRate := BucketConfig.RefillRate (config (store w));
                    lastRefillTime := clock w (ticks w) |}]> (heap w))
            (with_entry (store w) key (fresh (dom (heap w))) (clock w (S (ticks w))))).
Proof.
  intros Hk [Hc Hr] He. unfold GetBucket.
  destruct (decide (key = "")) as [|_]; [contradiction|].
  run. rewrite He. cbn beta. rewrite He.
  unfold NewBucketPtr, NewBucket.
  rewrite (proj2 (Z.leb_gt _ _) Hc). rewrite Hr.
  reflexivity.
Qed.

(** ** The empty key *)

(** C6 (error handling).  With the empty key, the limiter's [Allow] and
    the store's [GetBucket] return the invalid-key error at once and leave
    the world as it was: no bucket is created or altered, the store's map
    (hence [Count()]) is unchanged, and not even the clock is read. *)
Theorem C6_empty_key_is_refused_without_effect (w : World) :
  rateLimiter.Allow "" w = Some (Err ErrInvalidKey, w) /\
  GetBucket "" w = Some (Err ErrInvalidKey, w) /\
  (forall r w', rateLimiter.Allow "" w = Some (r, w') ->
     heap w' = heap w /\ buckets (store w') = buckets (store w) /\
     fst <$> Count w' = fst <$> Count w) /\
  (forall r w', GetBucket "" w = Some (r, w') ->
     heap w' = heap w /\ buckets (store w') = buckets (store w) /\
     fst <$> Count w' = fst <$> Count w).
Proof.
  split; [reflexivity|]. split; [reflexivity|].
  split; intros r w' [= _ <-]; auto.
Qed.

(** ** Get-or-create *)

Lemma fresh_loc_free (h : gmap loc Bucket) : h !! fresh (dom h) = None.
Proof. apply (not_elem_of_dom (D := gset loc)). apply is_fresh. Qed.

Lemma GetBucket_cases (w : World) (key : string) :
  key <> "" ->
  store_ok (store w) ->
  exists (l : loc) (i : nat) (h : gmap loc Bucket) (t : Time),
    GetBucket key w = Some (Ok l, at_tick w i h (with_entry (store w) key l t)) /\
    ((exists e, buckets (store w) !! key = Some e /\ l = bucket e /\
                h = heap w /\ i = S (ticks w) /\ t = clock w (ticks w)) \/
     (buckets (store w) !! key = None /\ l = fresh (dom (heap w)) /\
      h = <[l := {| capacity := BucketConfig.Capacity (config (store w));
                    tokens := float64 (BucketConfig.Capacity (config (store w)));
                    refillRate := BucketConfig.RefillRate (config (store w));
                    lastRefillTime := clock w (ticks w) |}]> (heap w) /\
      i = S (S (ticks w)) /\ t = clock w (S (ticks w)))).
Proof.
  intros Hk Hok.
  destruct (buckets (store w) !! key) as [e|] eqn:He.
  - exists (bucket e), (S (ticks w)), (heap w), (clock w (ticks w)).
    split; [apply GetBucket_existing; assumption|].
    left. exists e. auto.
  - eexists _, _, _, _.
    split; [apply GetBucket_new; assumption|].
    right. auto.
Qed.

(** Reduce the projections of explicit worlds and stores. *)
Ltac wproj :=
  cbn [at_tick heap clock ticks store with_entry buckets config cleanupAge
       bucket lastAccessed] in *.

Lemma wf_GetBucket (w : World) (key : string) :
  key <> "" ->
  wf w ->
  exists (l : loc) (w1 : World) (b0 : Bucket),
    GetBucket key w = Some (Ok l, w1) /\
    heap w1 !! l = Some b0 /\
    clock w1 = clock w /\ (ticks w <= ticks w1)%nat /\
    config (store w1) = config (store w) /\
    cleanupAge (store w1) = cleanupAge (store w) /\
    dom (buckets (store w1)) = {[key]} ∪ dom (buckets (store w)) /\
    (forall k, k <> key -> buckets (store w1) !! k = buckets (store w) !! k) /\
    (forall l', is_Some (heap w !! l') -> heap w1 !! l' = heap w !! l') /\
    (exists t, buckets (store w1) !! key = Some {| bucket := l; lastAccessed := t |}) /\
    wf w1.
Proof.
  intros Hk (Hok & Halloc).
  destruct (GetBucket_cases w key Hk Hok) as (l & i & h & t & E & Hcase).
  assert (Hheap : forall l', is_Some (heap w !! l') -> h !! l' = heap w !! l').
  { intros l0 [b' Hb']. destruct Hcase as [(e & _ & _ & -> & _)|(_ & El & -> & _)];
      [reflexivity|].
    apply lookup_insert_ne. intros <-.
    rewrite El, fresh_loc_free in Hb'. discriminate. }
  assert (Hl : is_Some (h !! l)).
  { destruct Hcase as [(e & He & -> & -> & _)|(_ & _ & -> & _)].
    - apply (Halloc key e He).
    - rewrite lookup_insert_eq. eauto. }
  destruct Hl as [b0 Hb0].
  exists l, (at_tick w i h (with_entry (store w) key l t)), b0.
  split; [exact E|]. wproj.
  split; [exact Hb0|]. split; [reflexivity|].
  split; [destruct Hcase as [(e & _ & _ & _ & -> & _)|(_ & _ & _ & -> & _)]; lia|].
  split; [reflexivity|]. split; [reflexivity|].
  split; [apply dom_insert_L|].
  split; [intros k Hne; apply lookup_insert_ne; congruence|].
  split; [exact Hheap|].
  split; [eexists; apply lookup_insert_eq|].
  split; [exact Hok|]. wproj.
  intros k e. rewrite lookup_insert. destruct (decide (key = k)) as [->|Hne].
  - intros [= <-]. wproj. eauto.
  - intros He. rewrite Hheap; apply (Halloc k e He).
Qed.

(** C7 (idempotent creation).  [GetBucket(k)] for a non-empty key returns
    a bucket of the heap and leaves it as the bucket of [k]'s entry.  A
    second [GetBucket(k)] on the store as the first call left it returns
    that same bucket, whatever was done to the buckets in between: it
    leaves every bucket of the heap as it is, so the bucket keeps its
    state, [k]'s entry still points to it, and the store has the same keys
    and the same number of entries as before the second call. *)
Theorem C7_GetBucket_twice_same_bucket (w : World) (k : string) :
  k <> "" ->
  wf w ->
  exists (l : loc) (b : Bucket) (w1 : World),
    GetBucket k w = Some (Ok l, w1) /\
    heap w1 !! l = Some b /\
    bucket <$> buckets (store w1) !! k = Some l /\
    (exists w2,
       GetBucket k w1 = Some (Ok l, w2) /\
       heap w2 = heap w1 /\
       heap w2 !! l = Some b /\
       bucket <$> buckets (store w2) !! k = Some l /\
       dom (buckets (store w2)) = dom (buckets (store w1)) /\
       size (buckets (store w2)) = size (buckets (store w1)) /\
       fst <$> Count w2 = fst <$> Count w1) /\
    (forall (w1' : World) (b' : Bucket),
       store w1' = store w1 ->
       heap w1' !! l = Some b' ->
       exists w2,
         GetBucket k w1' = Some (Ok l, w2) /\
         heap w2 = heap w1' /\
         heap w2 !! l = Some b' /\
         bucket <$> buckets (store w2) !! k = Some l /\
         dom (buckets (store w2)) = dom (buckets (store w1')) /\
         size (buckets (store w2)) = size (buckets (store w1'))).
Proof.
  intros Hk Hwf.
  destruct (wf_GetBucket w k Hk Hwf)
    as (l & w1 & b & E & Hb & _ & _ & _ & _ & _ & _ & _ & [t Hent] & _).
  exists l, b, w1.
  split; [exact E|]. split; [exact Hb|].
  split; [rewrite Hent; reflexivity|].
  assert (Hagain : forall (w1' : World) (b' : Bucket),
    store w1' = store w1 ->
    heap w1' !! l = Some b' ->
    exists w2,
      GetBucket k w1' = Some (Ok l, w2) /\
      heap w2 = heap w1' /\
      heap w2 !! l = Some b' /\
      bucket <$> buckets (store w2) !! k = Some l /\
      dom (buckets (store w2)) = dom (buckets (store w1')) /\
      size (buckets (store w2)) = size (buckets (store w1'))).
  { intros w1' b' Hs Hb'.
    assert (He : buckets (store w1') !! k = Some {| bucket := l; lastAccessed := t |})
      by (rewrite Hs; exact Hent).
    eexists. split; [apply (GetBucket_existing w1' k _ Hk He)|].
    wproj.
    split; [reflexivity|]. split; [exact Hb'|].
    split; [rewrite lookup_insert_eq; reflexivity|].
    split.
    - rewrite dom_insert_L.
      assert (k ∈ dom (buckets (store w1'))) by (apply elem_of_dom; eauto).
      set_solver.
    - apply map_size_insert_Some. rewrite He. eauto. }
  split; [|exact Hagain].
  destruct (Hagain w1 b eq_refl Hb) as (w2 & E2 & Hh & Hb2 & He2 & Hd & Hsz).
  exists w2. repeat (split; [assumption|]).
  unfold Count. run. cbn [fmap option_fmap option_map fst]. rewrite Hsz. reflexivity.
Qed.

Lemma idle_world_wf : wf idle_world.
Proof.
  split; [split; reflexivity|].
  intros k e H. cbn in H. rewrite lookup_empty in H. discriminate.
Qed.

Lemma C7_GetBucket_twice_same_bucket_witness :
  exists (l : loc) (b : Bucket) (w1 w2 : World),
    GetBucket "user1" idle_world = Some (Ok l, w1) /\
    heap w1 !! l = Some b /\
    GetBucket "user1" w1 = Some (Ok l, w2) /\
    heap w2 !! l = Some b.
Proof.
  destruct (C7_GetBucket_twice_same_bucket idle_world "user1")
    as (l & b & w1 & E1 & Hb & _ & (w2 & E2 & _ & Hb2 & _) & _).
  - discriminate.
  - exact idle_world_wf.
  - exists l, b, w1, w2. auto.
Defined.

(** ** Eviction *)

Lemma Before_idle (cutoff : Time) (kv : string * bucketEntry) :
  Before (lastAccessed (snd kv)) cutoff = true <-> idle cutoff kv.
Proof. unfold Before, idle. apply Z.ltb_lt. Qed.

(** The loop of [Cleanup] over any list of distinct keys that are all
    present in the map: the idle ones go, the others stay, and the counter
    grows by the number of entries that went. *)
Lemma cleanup_fold (cutoff : Time) (l : list (string * bucketEntry)) :
  NoDup (l.*1) ->
  forall (m : gmap string bucketEntry) (c : Z),
    (forall k e, (k, e) ∈ l -> m !! k = Some e) ->
    let r := foldl (cleanup_step cutoff) (m, c) l in
    (forall k, fst r !! k =
       match m !! k with
       | Some e => if decide ((k, e) ∈ l /\ idle cutoff (k, e)) then None else Some e
       | None => None
       end) /\
    snd r - c = Z.of_nat (size m) - Z.of_nat (size (fst r)).
Proof.
  induction l as [|[k0 e0] l IH]; intros Hnd m c Hin; cbn [foldl].
  - split; [|cbn [fst snd]; lia].
    intros k. cbn [fst]. destruct (m !! k) as [e|]; [|reflexivity].
    destruct (decide _) as [[H _]|_]; [|reflexivity].
    apply elem_of_nil in H. contradiction.
  - cbn [fmap list_fmap fst] in Hnd. apply NoDup_cons in Hnd as [Hk0 Hnd].
    assert (Hm0 : m !! k0 = Some e0) by (apply Hin; left).
    assert (Hne : forall k e, (k, e) ∈ l -> k <> k0).
    { intros k e Hl ->. apply Hk0. apply list_elem_of_fmap. exists (k0, e). auto. }
    destruct (Before (lastAccessed e0) cutoff) eqn:Eb.
    + assert (Hidle : idle cutoff (k0, e0)) by (apply Before_idle; exact Eb).
      assert (Estep : cleanup_step cutoff (m, c) (k0, e0) = (delete k0 m, c + 1)).
      { unfold cleanup_step. cbn [fst snd]. rewrite Eb. reflexivity. }
      rewrite Estep.
      destruct (IH Hnd (delete k0 m) (c + 1)) as [Hlk Hsz].
      { intros k e Hl. rewrite lookup_delete_ne by (intros ->; eapply Hne; eauto).
        apply Hin. right. exact Hl. }
      cbn zeta in Hlk, Hsz. split.
      * intros k. rewrite Hlk. destruct (decide (k = k0)) as [->|Hkk].
        -- rewrite lookup_delete_eq, Hm0.
           rewrite decide_True; [reflexivity|]. split; [left | exact Hidle].
        -- rewrite lookup_delete_ne by congruence.
           destruct (m !! k) as [e|]; [|reflexivity].
           apply decide_ext. rewrite elem_of_cons.
           split; [tauto|]. intros [[[=]|H] Hi]; [contradiction | tauto].
      * rewrite map_size_delete_Some in Hsz by eauto.
        assert (size m <> 0)%nat.
        { intros H. apply map_size_empty_inv in H. subst m.
          rewrite lookup_empty in Hm0. discriminate. }
        lia.
    + assert (Hidle : ~ idle cutoff (k0, e0)).
      { rewrite <- Before_idle. cbn [snd]. congruence. }
      assert (Estep : cleanup_step cutoff (m, c) (k0, e0) = (m, c)).
      { unfold cleanup_step. cbn [fst snd]. rewrite Eb. reflexivity. }
      rewrite Estep.
      destruct (IH Hnd m c) as [Hlk Hsz].
      { intros k e Hl. apply Hin. right. exact Hl. }
      cbn zeta in Hlk, Hsz. split; [|exact Hsz].
      intros k. rewrite Hlk.
      destruct (m !! k) as [e|] eqn:Ek; [|reflexivity].
      apply decide_ext. rewrite elem_of_cons.
      split; [tauto|]. intros [[[= -> ->]|H] Hi]; [contradiction | tauto].
Qed.

Lemma cleanup_loop_spec (cutoff : Time) (m : gmap string bucketEntry) :
  fst (cleanup_loop cutoff m) = filter (fun kv => ~ idle cutoff kv) m /\
  snd (cleanup_loop cutoff m) =
    Z.of_nat (size m) - Z.of_nat (size (fst (cleanup_loop cutoff m))).
Proof.
  unfold cleanup_loop.
  destruct (cleanup_fold cutoff (map_to_list m) (NoDup_fst_map_to_list m) m 0)
    as [Hlk Hsz].
  { intros k e. apply elem_of_map_to_list. }
  cbn zeta in Hlk, Hsz. split; [|lia].
  apply map_eq. intros k. rewrite Hlk.
  destruct (m !! k) as [e|] eqn:Ek.
  - destruct (decide _) as [[_ Hi]|Hn].
    + symmetry. apply map_lookup_filter_None. right. intros e' He'.
      rewrite Ek in He'. injection He' as <-. cbn. tauto.
    + symmetry. apply map_lookup_filter_Some. split; [exact Ek|].
      cbn. intros Hi. apply Hn. split; [|exact Hi].
      apply elem_of_map_to_list. exact Ek.
  - symmetry. apply map_lookup_filter_None. left. exact Ek.
Qed.

Lemma removed_count (cutoff : Time) (m : gmap string bucketEntry) :
  snd (cleanup_loop cutoff m) = Z.of_nat (size (filter (idle cutoff) m)).
Proof.
  destruct (cleanup_loop_spec cutoff m) as [Ef Es]. rewrite Es, Ef.
  rewrite <- (map_filter_union_complement (idle cutoff) m) at 1.
  rewrite map_size_disj_union by apply map_disjoint_filter_complement.
  lia.
Qed.

Lemma Cleanup_disabled (w : World) :
  cleanupAge (store w) = 0 -> Cleanup w = Some (Ok 0, w).
Proof.
  intros H. unfold Cleanup. run. rewrite H. reflexivity.
Qed.

(** With any age but zero, [Cleanup] removes the entries last accessed
    before the cutoff it computes, [now.Add(-cleanupAge)]. *)
Lemma Cleanup_at_cutoff (w : World) :
  cleanupAge (store w) <> 0 ->
  let cutoff := Add (clock w (ticks w)) (neg (cleanupAge (store w))) in
  Cleanup w =
    Some (Ok (Z.of_nat (size (filter (idle cutoff) (buckets (store w))))),
          at_tick w (S (ticks w)) (heap w)
            {| buckets := filter (fun kv => ~ idle cutoff kv) (buckets (store w));
               config := config (store w);
               cleanupAge := cleanupAge (store w);
               lastCleanup := clock w (ticks w) |}).
Proof.
  intros H0 cutoff. unfold Cleanup. run.
  rewrite (proj2 (Z.eqb_neq _ _) H0). fold cutoff.
  pose proof (cleanup_loop_spec cutoff (buckets (store w))) as [Ef _].
  pose proof (removed_count cutoff (buckets (store w))) as Es.
  destruct (cleanup_loop _ _) as [m removed]. cbn [fst snd] in Ef, Es.
  subst m removed. reflexivity.
Qed.

Lemma Cleanup_enabled (w : World) :
  cleanupAge (store w) <> 0 ->
  cleanupAge (store w) <> minDuration ->
  Cleanup w =
    Some (Ok (Z.of_nat (size (filter (idle (clock w (ticks w) - cleanupAge (store w)))
                               (buckets (store w))))),
          at_tick w (S (ticks w)) (heap w)
            {| buckets := filter (fun kv => ~ idle (clock w (ticks w) - cleanupAge (store w)) kv)
                            (buckets (store w));
               config := config (store w);
               cleanupAge := cleanupAge (store w);
               lastCleanup := clock w (ticks w) |}).
Proof.
  intros H0 Hmin. rewrite (Cleanup_at_cutoff w H0). cbn zeta.
  unfold neg. rewrite (proj2 (Z.eqb_neq _ _) Hmin).
  unfold Add. change (clock w (ticks w) + - cleanupAge (store w))
    with (clock w (ticks w) - cleanupAge (store w)).
  reflexivity.
Qed.

(** C8 (what the code does where the claim fails).  A store built by
    [NewInMemoryStore] with the least [Duration], [-2^63] ns, as its
    cleanup age: [-cleanupAge] overflows to [-2^63] again, so the cutoff of
    [Cleanup] is [now - 2^63] instead of [now + 2^63].  The entry of
    "user1", last accessed 150 ms before the reading of [Cleanup], is
    older than [now - cleanupAge], and yet [Cleanup] returns 0 and keeps
    it. *)
Theorem C8_Cleanup_least_age_keeps_idle_entry :
  NewInMemoryStore 0 (config idle_store) minDuration = Ok min_age_store /\
  cleanupAge (store min_age_world_1) <> 0 /\
  (exists e, buckets (store min_age_world_1) !! "user1" = Some e /\
     lastAccessed e <
       clock min_age_world_1 (ticks min_age_world_1) - cleanupAge (store min_age_world_1)) /\
  exists w',
    Cleanup min_age_world_1 = Some (Ok 0, w') /\
    buckets (store w') = buckets (store min_age_world_1).
Proof.
  split; [reflexivity|].
  split; [vm_compute; discriminate|].
  split.
  - eexists. split; [vm_compute; reflexivity|]. vm_compute. reflexivity.
  - eexists. split; vm_compute; reflexivity.
Qed.

(** ** The limiter's decision on a fast clock *)

(** C5 (what the code does where the claim fails).  A limiter of capacity
    1 at one token per microsecond admits a first request at 0 ns.  The
    second request's [Allow()] reads the clock at 500 ns, finds half a
    token and denies; its [Remaining()] and [RetryAfter()] read the clock
    at 1500 ns, by when the token is back: the decision is denied with
    [Remaining = 1] and [RetryAfter = 0], a zero wait for a request that
    was not allowed. *)
Theorem C5_denied_with_zero_wait :
  NewInMemoryStore 0 burst_config 0 = Ok burst_store /\
  fst <$> rateLimiter.Allow "client" burst_world =
    Some (Ok {| Decision.Allowed := true; Decision.Remaining := 0;
                Decision.Limit := 1; Decision.RetryAfter := 0;
                Decision.Key := "client"; Decision.Route := "" |}) /\
  fst <$> rateLimiter.Allow "client" burst_world_1 =
    Some (Ok {| Decision.Allowed := false; Decision.Remaining := 1;
                Decision.Limit := 1; Decision.RetryAfter := 0;
                Decision.Key := "client"; Decision.Route := "" |}) /\
  ~ (forall (d : Decision.t) (w' : World),
       rateLimiter.Allow "client" burst_world_1 = Some (Ok d, w') ->
       (Decision.RetryAfter d = 0 <-> Decision.Allowed d = true)).
Proof.
  split; [reflexivity|].
  split; [vm_compute; reflexivity|]. split; [vm_compute; reflexivity|].
  intros H.
  destruct (rateLimiter.Allow "client" burst_world_1) as [[[d|e] w']|] eqn:E;
    try (vm_compute in E; discriminate).
  specialize (H d w' eq_refl).
  assert (Hd : Decision.Allowed d = false /\ Decision.RetryAfter d = 0).
  { vm_compute in E. injection E as <- _. split; reflexivity. }
  destruct Hd as [Ha Hr]. apply H in Hr. congruence.
Qed.

(** * Further properties of the store and the limiter *)

Lemma after_call_capacity now c b : capacity (after_call now c b) = capacity b.
Proof.
  destruct c as [|n| |]; cbn [after_call].
  - unfold Allow. apply AllowN_capacity.
  - apply AllowN_capacity.
  - reflexivity.
  - rewrite RetryAfter_state. reflexivity.
Qed.

Lemma after_call_rate now c b : refillRate (after_call now c b) = refillRate b.
Proof.
  destruct c as [|n| |]; cbn [after_call].
  - unfold Allow. apply AllowN_refillRate.
  - apply AllowN_refillRate.
  - reflexivity.
  - rewrite RetryAfter_state. reflexivity.
Qed.

Lemma Allow_well_behaved : well_behaved Allow.
Proof.
  intros now b. unfold Allow. split; [apply AllowN_capacity | apply AllowN_refillRate].
Qed.

Lemma Remaining_well_behaved : well_behaved Remaining.
Proof. intros now b. split; reflexivity. Qed.

Lemma RetryAfter_well_behaved : well_behaved RetryAfter.
Proof. intros now b. rewrite RetryAfter_state. split; reflexivity. Qed.

Lemma call_body_well_behaved (c : Call) : well_behaved (call_body c).
Proof.
  intros now b. unfold call_body. cbn [snd].
  split; [apply after_call_capacity | apply after_call_rate].
Qed.

Lemma sound_GetBucket (w : World) (key : string) :
  key <> "" ->
  sound w ->
  exists (l : loc) (w1 : World) (b0 : Bucket),
    GetBucket key w = Some (Ok l, w1) /\
    heap w1 !! l = Some b0 /\
    clock w1 = clock w /\ (ticks w <= ticks w1)%nat /\
    config (store w1) = config (store w) /\
    cleanupAge (store w1) = cleanupAge (store w) /\
    dom (buckets (store w1)) = {[key]} ∪ dom (buckets (store w)) /\
    (forall k, k <> key -> buckets (store w1) !! k = buckets (store w) !! k) /\
    (forall l', is_Some (heap w !! l') -> heap w1 !! l' = heap w !! l') /\
    (exists t, buckets (store w1) !! key = Some {| bucket := l; lastAccessed := t |}) /\
    sound w1.
Proof.
  intros Hk (Hwf & Hdist & Hconf).
  pose proof Hwf as (Hok & Halloc).
  destruct (GetBucket_cases w key Hk Hok) as (l & i & h & t & E & Hcase).
  destruct (wf_GetBucket w key Hk Hwf)
    as (l' & w1 & b0 & E' & Hb0 & Hclk & Htk & Hcfg & Hage & Hdom & Hother & Hheap & Hent & Hwf1).
  rewrite E in E'. injection E' as <- <-.
  exists l, (at_tick w i h (with_entry (store w) key l t)), b0.
  split; [exact E|].
  do 9 (split; [assumption|]).
  split; [exact Hwf1|]. wproj. split.
  - (* distinct buckets *)
    intros k1 k2 e1 e2. wproj.
    rewrite !lookup_insert.
    destruct (decide (key = k1)) as [<-|N1], (decide (key = k2)) as [<-|N2];
      try congruence.
    + intros [= <-] H2 Hl. wproj.
      destruct Hcase as [(e & He & -> & _)|(_ & El & _)].
      * symmetry. apply (Hdist k2 key e2 e H2 He). congruence.
      * exfalso. destruct (Halloc k2 e2 H2) as (b' & Hb').
        rewrite <- Hl, El, fresh_loc_free in Hb'. discriminate.
    + intros H1 [= <-] Hl. wproj.
      destruct Hcase as [(e & He & -> & _)|(_ & El & _)].
      * apply (Hdist k1 key e1 e H1 He). congruence.
      * exfalso. destruct (Halloc k1 e1 H1) as (b' & Hb').
        rewrite Hl, El, fresh_loc_free in Hb'. discriminate.
    + apply Hdist.
  - (* configured *)
    intros k e. wproj.
    rewrite lookup_insert. destruct (decide (key = k)) as [<-|N].
    + intros [= <-]. split; [exact Hk|]. wproj.
      destruct Hcase as [(e & He & -> & -> & _)|(_ & El & -> & _)].
      * destruct (Hconf key e He) as (_ & b & Hb & Hc & Hr). eauto.
      * eexists. split; [apply lookup_insert_eq|]. split; reflexivity.
    + intros He. destruct (Hconf k e He) as (Hne & b & Hb & Hc & Hr).
      split; [exact Hne|]. exists b. split; [|auto].
      rewrite Hheap; [exact Hb | eauto].
Qed.

Lemma sound_method {A : Type} (body : Time -> Bucket -> A * Bucket)
  (w : World) (l : loc) (b : Bucket) :
  well_behaved body ->
  sound w ->
  heap w !! l = Some b ->
  exists w' : World,
    method l body w = Some (fst (body (clock w (ticks w)) b), w') /\
    heap w' = <[l := snd (body (clock w (ticks w)) b)]> (heap w) /\
    clock w' = clock w /\ ticks w' = S (ticks w) /\ store w' = store w /\
    sound w'.
Proof.
  intros Hbody ((Hok & Halloc) & Hdist & Hconf) Hb.
  destruct (Hbody (clock w (ticks w)) b) as (Ec' & Er').
  eexists. split; [apply method_run, Hb|]. wproj.
  do 4 (split; [reflexivity|]).
  split; [split|split].
  - exact Hok.
  - wproj. intros k e He. rewrite lookup_insert.
    destruct (decide (l = bucket e)); [eauto | apply (Halloc k e He)].
  - exact Hdist.
  - intros k e He. wproj.
    destruct (Hconf k e He) as (Hne & b' & Hb' & Hc & Hr).
    split; [exact Hne|]. rewrite lookup_insert.
    destruct (decide (l = bucket e)) as [El|_].
    + eexists. split; [reflexivity|].
      rewrite El, Hb' in Hb. injection Hb as ->.
      rewrite Ec', Er'. auto.
    + exists b'. auto.
Qed.

(** What [rl.Allow(key)] does in a sound world. *)
Lemma Allow_run (w : World) (key : string) :
  key <> "" ->
  sound w ->
  exists (l : loc) (w1 : World) (b0 : Bucket) (d : Decision.t) (w' : World),
    GetBucket key w = Some (Ok l, w1) /\
    heap w1 !! l = Some b0 /\
    rateLimiter.Allow key w = Some (Ok d, w') /\
    let t1 := clock w (ticks w1) in
    let t2 := clock w (S (ticks w1)) in
    let t3 := clock w (S (S (ticks w1))) in
    let b1 := snd (Allow t1 b0) in
    let b2 := snd (Remaining t2 b1) in
    Decision.Allowed d = fst (Allow t1 b0) /\
    Decision.Remaining d = fst (Remaining t2 b1) /\
    Decision.Limit d = capacity b0 /\
    Decision.Limit d = BucketConfig.Capacity (config (store w)) /\
    Decision.Key d = key /\
    Decision.Route d = "" /\
    (Decision.Allowed d = true ->
       Decision.RetryAfter d = 0 /\ heap w' !! l = Some b2) /\
    (Decision.Allowed d = false ->
       Decision.RetryAfter d = fst (RetryAfter t3 b2) /\
       heap w' !! l = Some (snd (RetryAfter t3 b2))) /\
    store w' = store w1 /\
    clock w' = clock w /\
    (forall l', l' <> l -> heap w' !! l' = heap w1 !! l') /\
    sound w'.
Proof.
  intros Hk Hs.
  destruct (sound_GetBucket w key Hk Hs)
    as (l & w1 & b0 & E & Hb0 & Hclk1 & _ & Hcfg1 & _ & _ & _ & _ & [t Hent] & Hs1).
  destruct (sound_method Allow w1 l b0 Allow_well_behaved Hs1 Hb0)
    as (w2 & E2 & Hh2 & Hclk2 & Htk2 & Hst2 & Hs2).
  assert (Hb1 : heap w2 !! l = Some (snd (Allow (clock w1 (ticks w1)) b0)))
    by (rewrite Hh2; apply lookup_insert_eq).
  destruct (sound_method Remaining w2 l _ Remaining_well_behaved Hs2 Hb1)
    as (w3 & E3 & Hh3 & Hclk3 & Htk3 & Hst3 & Hs3).
  rewrite Hclk2, Htk2, Hclk1 in *.
  set (t1 := clock w (ticks w1)) in *.
  set (t2 := clock w (S (ticks w1))) in *.
  set (b1 := snd (Allow t1 b0)) in *.
  set (b2 := snd (Remaining t2 b1)) in *.
  assert (Hb2 : heap w3 !! l = Some b2) by (rewrite Hh3; apply lookup_insert_eq).
  assert (Hcap : capacity b2 = capacity b0).
  { unfold b2, Remaining. proj.
    destruct (refill_fields t2 b1) as (Ec & _). rewrite Ec.
    unfold b1, Allow. apply AllowN_capacity. }
  assert (Hcfg : capacity b0 = BucketConfig.Capacity (config (store w))).
  { destruct Hs1 as (_ & _ & Hconf1).
    destruct (Hconf1 key _ Hent) as (_ & b & Hb & Hc & _).
    cbn [bucket] in Hb. rewrite Hb0 in Hb. injection Hb as <-.
    rewrite Hc, Hcfg1. reflexivity. }
  assert (Hframe3 : forall l', l' <> l -> heap w3 !! l' = heap w1 !! l').
  { intros l' Hne. rewrite Hh3, lookup_insert_ne, Hh2, lookup_insert_ne by congruence.
    reflexivity. }
  assert (Hprefix :
    rateLimiter.Allow key w =
      (if fst (Allow t1 b0) then
         mret (Ok {| Decision.Allowed := true;
                     Decision.Remaining := fst (Remaining t2 b1);
                     Decision.Limit := Capacity b2;
                     Decision.RetryAfter := 0;
                     Decision.Key := key;
                     Decision.Route := "" |})
       else
         retry ← method l RetryAfter;
         mret (Ok {| Decision.Allowed := false;
                     Decision.Remaining := fst (Remaining t2 b1);
                     Decision.Limit := Capacity b2;
                     Decision.RetryAfter := retry;
                     Decision.Key := key;
                     Decision.Route := "" |})) w3).
  { unfold rateLimiter.Allow.
    destruct (decide (key = "")) as [|_]; [contradiction|].
    unfold mbind at 1, M_bind at 1. rewrite E.
    unfold mbind at 1, M_bind at 1. rewrite E2.
    unfold mbind at 1, M_bind at 1. rewrite E3.
    unfold mbind at 1, M_bind at 1. rewrite (getter_run l Capacity w3 b2 Hb2).
    fold b1. destruct (fst (Allow t1 b0)); reflexivity. }
  destruct (fst (Allow t1 b0)) eqn:Eallowed.
  - exists l, w1, b0. eexists. exists w3.
    split; [exact E|]. split; [exact Hb0|]. split; [exact Hprefix|].
    cbn zeta. cbn [Decision.Allowed Decision.Remaining Decision.Limit
                   Decision.RetryAfter Decision.Key Decision.Route].
    fold t1 t2 b1 b2. unfold Capacity. rewrite Hcap.
    split; [symmetry; exact Eallowed|]. split; [reflexivity|].
    split; [reflexivity|]. split; [exact Hcfg|].
    split; [reflexivity|]. split; [reflexivity|].
    split; [intros _; split; [reflexivity | exact Hb2]|].
    split; [discriminate|].
    split; [congruence|]. split; [congruence|]. split; [exact Hframe3 | exact Hs3].
  - destruct (sound_method RetryAfter w3 l b2 RetryAfter_well_behaved Hs3 Hb2)
      as (w4 & E4 & Hh4 & Hclk4 & _ & Hst4 & Hs4).
    rewrite Hclk3, Htk3 in E4, Hh4.
    unfold mbind, M_bind in Hprefix. rewrite E4 in Hprefix.
    exists l, w1, b0. eexists. exists w4.
    split; [exact E|]. split; [exact Hb0|]. split; [exact Hprefix|].
    cbn zeta. cbn [Decision.Allowed Decision.Remaining Decision.Limit
                   Decision.RetryAfter Decision.Key Decision.Route].
    fold t1 t2 b1 b2. unfold Capacity. rewrite Hcap.
    split; [symmetry; exact Eallowed|]. split; [reflexivity|].
    split; [reflexivity|]. split; [exact Hcfg|].
    split; [reflexivity|]. split; [reflexivity|].
    split; [discriminate|].
    split; [intros _; split; [reflexivity | rewrite Hh4; apply lookup_insert_eq]|].
    split; [congruence|]. split; [congruence|]. split; [|exact Hs4].
    intros l' Hne. rewrite Hh4, lookup_insert_ne by congruence. apply Hframe3, Hne.
Qed.

Lemma Cleanup_run (w : World) :
  exists (r : Z) (m : gmap string bucketEntry) (i : nat) (t : Time),
    Cleanup w =
      Some (Ok r, at_tick w i (heap w)
                    {| buckets := m; config := config (store w);
                       cleanupAge := cleanupAge (store w); lastCleanup := t |}) /\
    (ticks w <= i <= S (ticks w))%nat /\
    (forall k e, m !! k = Some e -> buckets (store w) !! k = Some e) /\
    r = Z.of_nat (size (buckets (store w))) - Z.of_nat (size m).
Proof.
  destruct (decide (cleanupAge (store w) = 0)) as [H0|H0].
  - exists 0, (buckets (store w)), (ticks w), (lastCleanup (store w)).
    split.
    + rewrite (Cleanup_disabled w H0). destruct w as [c i h [m cf a lc]]. reflexivity.
    + split; [lia|]. split; [auto | lia].
  - unfold Cleanup. run. rewrite (proj2 (Z.eqb_neq _ _) H0).
    set (cutoff := Add (clock w (ticks w)) (neg (cleanupAge (store w)))).
    destruct (cleanup_loop_spec cutoff (buckets (store w))) as [Ef Es].
    destruct (cleanup_loop cutoff (buckets (store w))) as [m removed].
    cbn [fst snd] in Ef, Es.
    exists removed, m, (S (ticks w)), (clock w (ticks w)).
    split; [reflexivity|]. split; [lia|]. split; [|exact Es].
    intros k e. rewrite Ef. intros H. apply map_lookup_filter_Some in H. tauto.
Qed.

Lemma sound_Cleanup (w : World) :
  sound w ->
  exists (r : Z) (w' : World),
    Cleanup w = Some (Ok r, w') /\
    heap w' = heap w /\ clock w' = clock w /\
    config (store w') = config (store w) /\
    (forall k e, buckets (store w') !! k = Some e -> buckets (store w) !! k = Some e) /\
    sound w'.
Proof.
  intros ((Hok & Halloc) & Hdist & Hconf).
  destruct (Cleanup_run w) as (r & m & i & t & E & Hi & Hsub & _).
  eexists _, _. split; [exact E|]. wproj.
  split; [reflexivity|]. split; [reflexivity|]. split; [reflexivity|].
  split; [exact Hsub|]. split; [|split].
  - split; [exact Hok|]. wproj.
    intros k e He. apply (Halloc k e (Hsub k e He)).
  - intros k1 k2 e1 e2. wproj.
    intros H1 H2. apply (Hdist k1 k2 e1 e2); auto.
  - intros k e. wproj.
    intros He. apply (Hconf k e), Hsub, He.
Qed.

Lemma sound_exec (w : World) (o : Op) :
  sound w ->
  exists w' : World,
    exec o w = Some (tt, w') /\
    clock w' = clock w /\
    config (store w') = config (store w) /\
    sound w'.
Proof.
  intros Hs. destruct o as [key|key c| |]; cbn [exec].
  - destruct (decide (key = "")) as [->|Hk].
    + exists w. split; [reflexivity | auto].
    + destruct (Allow_run w key Hk Hs)
        as (l & w1 & b0 & d & w' & E1 & _ & E & _ & _ & _ & _ & _ & _ & _ & _ & Hst & Hclk & _ & Hs').
      destruct (sound_GetBucket w key Hk Hs)
        as (l' & w1' & b0' & E1' & _ & _ & _ & Hcfg & _).
      rewrite E1 in E1'. injection E1' as <- <-.
      exists w'. unfold mbind, M_bind. rewrite E.
      split; [reflexivity|]. split; [exact Hclk|]. split; [congruence | exact Hs'].
  - destruct (decide (key = "")) as [->|Hk].
    + exists w. split; [destruct c; reflexivity | auto].
    + destruct (sound_GetBucket w key Hk Hs)
        as (l & w1 & b0 & E1 & Hb0 & Hclk & _ & Hcfg & _ & _ & _ & _ & _ & Hs1).
      unfold mbind, M_bind. rewrite E1.
      destruct c as [c|].
      * destruct (sound_method (call_body c) w1 l b0 (call_body_well_behaved c) Hs1 Hb0)
          as (w2 & E2 & _ & Hclk2 & _ & Hst2 & Hs2).
        exists w2. rewrite E2. cbn [call_body fst].
        split; [reflexivity|]. split; [congruence|]. split; [congruence | exact Hs2].
      * exists w1. split; [reflexivity | auto].
  - destruct (sound_Cleanup w Hs) as (r & w' & E & _ & Hclk & Hcfg & _ & Hs').
    exists w'. unfold mbind, M_bind. rewrite E. auto.
  - exists w. split; [reflexivity | auto].
Qed.

Lemma sound_exec_all (ops : list Op) : forall w : World,
  sound w ->
  exists w' : World,
    exec_all ops w = Some (tt, w') /\
    clock w' = clock w /\
    config (store w') = config (store w) /\
    sound w'.
Proof.
  induction ops as [|o rest IH]; intros w Hs.
  - exists w. split; [reflexivity | auto].
  - destruct (sound_exec w o Hs) as (w1 & E1 & Hclk1 & Hcfg1 & Hs1).
    destruct (IH w1 Hs1) as (w' & E & Hclk & Hcfg & Hs').
    exists w'. cbn [exec_all]. unfold mbind, M_bind. rewrite E1.
    split; [exact E|]. split; [congruence|]. split; [congruence | exact Hs'].
Qed.

Lemma NewInMemoryStore_Ok now cfg age s :
  NewInMemoryStore now cfg age = Ok s ->
  store_ok s /\
  s = {| buckets := ∅; config := cfg; cleanupAge := age; lastCleanup := now |}.
Proof.
  unfold NewInMemoryStore, store_ok.
  destruct (_ <=? 0) eqn:Ec; [discriminate|].
  destruct (fle _ _) eqn:Er; [discriminate|].
  intros [= <-]. apply Z.leb_gt in Ec. cbn [config]. auto.
Qed.

Lemma sound_initial (now : Time) (cfg : BucketConfig.t) (age : Duration)
  (s : InMemoryStore) (c : nat -> Time) (i : nat) (h : gmap loc Bucket) :
  NewInMemoryStore now cfg age = Ok s ->
  sound {| clock := c; ticks := i; heap := h; store := s |}.
Proof.
  intros Hnew. apply NewInMemoryStore_Ok in Hnew as (Hok & ->).
  split; [|split].
  - split; [exact Hok|].
    intros k e H. cbn in H. rewrite lookup_empty in H. discriminate.
  - intros k1 k2 e1 e2 H. cbn in H. rewrite lookup_empty in H. discriminate.
  - intros k e H. cbn in H. rewrite lookup_empty in H. discriminate.
Qed.

(** X4.  Whatever the callers do with a limiter built on a store from
    [NewInMemoryStore] ([Allow], [GetBucket] followed by any call on the
    bucket, [Cleanup], [Count], in any order and on any clock), nothing
    panics, the store keeps its configuration, no two keys ever share a
    bucket, no entry has the empty key, and every entry points to a bucket
    of the heap that has the store's capacity and refill rate. *)
Theorem operations_keep_the_store_sound
  (now : Time) (cfg : BucketConfig.t) (age : Duration) (s : InMemoryStore)
  (c : nat -> Time) (ops : list Op) :
  NewInMemoryStore now cfg age = Ok s ->
  exists w' : World,
    exec_all ops {| clock := c; ticks := 0; heap := ∅; store := s |} = Some (tt, w') /\
    config (store w') = cfg /\
    distinct_buckets w' /\
    forall k e, buckets (store w') !! k = Some e ->
      k <> "" /\
      exists b, heap w' !! bucket e = Some b /\
        capacity b = BucketConfig.Capacity cfg /\
        refillRate b = BucketConfig.RefillRate cfg.
Proof.
  intros Hnew.
  pose proof (sound_initial now cfg age s c 0%nat ∅ Hnew) as Hs.
  destruct (sound_exec_all ops _ Hs) as (w' & E & _ & Hcfg & Hs').
  cbn [store] in Hcfg.
  assert (Ecfg : config s = cfg).
  { apply NewInMemoryStore_Ok in Hnew as (_ & ->). reflexivity. }
  exists w'. split; [exact E|]. split; [congruence|].
  destruct Hs' as (_ & Hdist & Hconf).
  split; [exact Hdist|].
  intros k e He.
  destruct (Hconf k e He) as (Hne & b & Hb & Hc & Hr).
  split; [exact Hne|]. exists b. rewrite Hcfg, Ecfg in Hc, Hr. auto.
Qed.

Lemma operations_keep_the_store_sound_witness :
  NewInMemoryStore 0 (config idle_store) 100000000 = Ok idle_store /\
  exists w' : World,
    exec_all example_ops idle_world = Some (tt, w') /\
    config (store w') = config idle_store /\
    distinct_buckets w'.
Proof.
  split; [reflexivity|].
  destruct (operations_keep_the_store_sound 0 (config idle_store) 100000000
              idle_store slow_clock example_ops)
    as (w' & E & Hcfg & Hdist & _).
  - reflexivity.
  - exists w'. auto.
Defined.

(** X5.  Keys are independent: [rl.Allow(k1)] leaves the entry of every
    other key [k2] (its bucket pointer and its last access) and the state
    of that bucket exactly as they were. *)
Theorem Allow_leaves_other_keys_alone
  (w : World) (k1 k2 : string) (e2 : bucketEntry) (b2 : Bucket) :
  sound w ->
  k1 <> "" ->
  k2 <> k1 ->
  buckets (store w) !! k2 = Some e2 ->
  heap w !! bucket e2 = Some b2 ->
  exists (d : Decision.t) (w' : World),
    rateLimiter.Allow k1 w = Some (Ok d, w') /\
    buckets (store w') !! k2 = Some e2 /\
    heap w' !! bucket e2 = Some b2.
Proof.
  intros Hs Hk Hne He2 Hb2.
  destruct (Allow_run w k1 Hk Hs)
    as (l & w1 & b0 & d & w' & E1 & _ & E & _ & _ & _ & _ & _ & _ & _ & _ & Hst & _ & Hframe & _).
  destruct (sound_GetBucket w k1 Hk Hs)
    as (l' & w1' & b0' & E1' & _ & _ & _ & _ & _ & _ & Hother & Hheap & [t Hent] & Hs1).
  rewrite E1 in E1'. injection E1' as <- <-.
  assert (He2' : buckets (store w1) !! k2 = Some e2) by (rewrite Hother; auto).
  assert (Hl : bucket e2 <> l).
  { intros Heq. destruct Hs1 as (_ & Hdist & _).
    apply Hne. apply (Hdist k2 k1 e2 _ He2' Hent). exact Heq. }
  exists d, w'. split; [exact E|]. split; [rewrite Hst; exact He2'|].
  rewrite (Hframe _ Hl), Hheap; [exact Hb2 | eauto].
Qed.

(** ** The keys of the store *)

Lemma exec_dom (w : World) (o : Op) :
  sound w ->
  o <> OpCleanup ->
  exists w' : World,
    exec o w = Some (tt, w') /\
    sound w' /\
    dom (buckets (store w')) = keys_of [o] ∪ dom (buckets (store w)).
Proof.
  intros Hs Hnc. destruct o as [key|key c| |]; cbn [exec keys_of].
  - destruct (decide (key = "")) as [->|Hk].
    + exists w. split; [reflexivity|]. split; [exact Hs | set_solver].
    + destruct (Allow_run w key Hk Hs)
        as (l & w1 & b0 & d & w' & E1 & _ & E & _ & _ & _ & _ & _ & _ & _ & _ & Hst & _ & _ & Hs').
      destruct (sound_GetBucket w key Hk Hs)
        as (l' & w1' & b0' & E1' & _ & _ & _ & _ & _ & Hdom & _).
      rewrite E1 in E1'. injection E1' as <- <-.
      exists w'. unfold mbind, M_bind. rewrite E.
      split; [reflexivity|]. split; [exact Hs'|]. rewrite Hst, Hdom. set_solver.
  - destruct (decide (key = "")) as [->|Hk].
    + exists w. split; [destruct c; reflexivity|]. split; [exact Hs | set_solver].
    + destruct (sound_GetBucket w key Hk Hs)
        as (l & w1 & b0 & E1 & Hb0 & _ & _ & _ & _ & Hdom & _ & _ & _ & Hs1).
      unfold mbind, M_bind. rewrite E1.
      destruct c as [c|].
      * destruct (sound_method (call_body c) w1 l b0 (call_body_well_behaved c) Hs1 Hb0)
          as (w2 & E2 & _ & _ & _ & Hst2 & Hs2).
        exists w2. rewrite E2. cbn [call_body fst].
        split; [reflexivity|]. split; [exact Hs2|]. rewrite Hst2, Hdom. set_solver.
      * exists w1. split; [reflexivity|]. split; [exact Hs1|]. rewrite Hdom. set_solver.
  - contradiction.
  - exists w. split; [reflexivity|]. split; [exact Hs | set_solver].
Qed.

Lemma keys_of_cons (o : Op) (rest : list Op) :
  keys_of (o :: rest) = keys_of [o] ∪ keys_of rest.
Proof. destruct o; cbn [keys_of]; set_solver. Qed.

Lemma exec_all_dom (ops : list Op) : forall w : World,
  sound w ->
  no_cleanup ops ->
  exists w' : World,
    exec_all ops w = Some (tt, w') /\
    dom (buckets (store w')) = keys_of ops ∪ dom (buckets (store w)).
Proof.
  induction ops as [|o rest IH]; intros w Hs Hnc.
  - exists w. split; [reflexivity | cbn [keys_of]; set_solver].
  - apply Forall_cons in Hnc as [Hno Hnc].
    destruct (exec_dom w o Hs Hno) as (w1 & E1 & Hs1 & Hd1).
    destruct (IH w1 Hs1 Hnc) as (w' & E & Hd).
    exists w'. cbn [exec_all]. unfold mbind, M_bind. rewrite E1.
    split; [exact E|]. rewrite Hd, Hd1, (keys_of_cons o rest). set_solver.
Qed.

(** X6.  Between two cleanups the store has exactly one entry for every
    non-empty key that was asked for: after any operations without
    [Cleanup] on a sound store, the keys of the store are those it had and
    the non-empty keys passed to [Allow] and [GetBucket], and [Count()] is
    their number; on a store that was empty they are the keys asked for. *)
Theorem Count_is_the_number_of_keys_seen (w : World) (ops : list Op) :
  sound w ->
  no_cleanup ops ->
  exists w' : World,
    exec_all ops w = Some (tt, w') /\
    dom (buckets (store w')) = keys_of ops ∪ dom (buckets (store w)) /\
    Count w' = Some (Z.of_nat (size (keys_of ops ∪ dom (buckets (store w)))), w') /\
    (buckets (store w) = ∅ ->
     dom (buckets (store w')) = keys_of ops /\
     Count w' = Some (Z.of_nat (size (keys_of ops)), w')).
Proof.
  intros Hs Hnc.
  destruct (exec_all_dom ops w Hs Hnc) as (w' & E & Hd).
  assert (Hc : Count w' = Some (Z.of_nat (size (dom (buckets (store w')))), w')).
  { unfold Count. run. rewrite size_dom. reflexivity. }
  exists w'. split; [exact E|]. split; [exact Hd|].
  split; [rewrite <- Hd; exact Hc|].
  intros He. rewrite He, dom_empty_L, (right_id_L ∅ (∪)) in Hd.
  split; [exact Hd | rewrite <- Hd; exact Hc].
Qed.

Lemma idle_world_sound : sound idle_world.
Proof.
  apply (sound_initial 0 (config idle_store) 100000000 idle_store slow_clock 0 ∅).
  reflexivity.
Qed.

Lemma idle_world_1_sound : sound idle_world_1.
Proof.
  destruct (sound_exec idle_world (OpGetBucket "user1" (Some (CallAllowN 3)))
              idle_world_sound) as (w' & E & _ & _ & Hs).
  assert (E' : exec (OpGetBucket "user1" (Some (CallAllowN 3))) idle_world
               = Some (tt, idle_world_1)) by (vm_compute; reflexivity).
  assert (Hw : Some (tt, idle_world_1) = Some (tt, w')) by (rewrite <- E'; exact E).
  apply (f_equal (fun o : option (unit * World) =>
                    match o with Some (_, x) => x | None => w' end)) in Hw.
  change (idle_world_1 = w') in Hw. rewrite Hw. exact Hs.
Qed.

Lemma Count_is_the_number_of_keys_seen_witness :
  exists w' : World,
    exec_all (take 5 example_ops) idle_world = Some (tt, w') /\
    Count w' = Some (2, w').
Proof.
  destruct (Count_is_the_number_of_keys_seen idle_world (take 5 example_ops))
    as (w' & E & _ & _ & Hc).
  - exact idle_world_sound.
  - unfold no_cleanup, example_ops. cbn [take]. repeat constructor; discriminate.
  - exists w'. split; [exact E|].
    destruct (Hc eq_refl) as [_ ->]. reflexivity.
Defined.

Lemma Allow_leaves_other_keys_alone_witness :
  exists (d : Decision.t) (w' : World),
    rateLimiter.Allow "user2" idle_world_1 = Some (Ok d, w') /\
    buckets (store w') !! "user1" = buckets (store idle_world_1) !! "user1" /\
    heap w' !! 1%positive = heap idle_world_1 !! 1%positive.
Proof.
  assert (He : buckets (store idle_world_1) !! "user1" =
               Some {| bucket := 1%positive; lastAccessed := 150000000 |})
    by (vm_compute; reflexivity).
  destruct (heap idle_world_1 !! 1%positive) as [b2|] eqn:Hb;
    [|vm_compute in Hb; discriminate].
  destruct (Allow_leaves_other_keys_alone idle_world_1 "user2" "user1"
              {| bucket := 1%positive; lastAccessed := 150000000 |} b2)
    as (d & w' & E & H1 & H2).
  - exact idle_world_1_sound.
  - discriminate.
  - discriminate.
  - exact He.
  - exact Hb.
  - exists d, w'. split; [exact E|]. split; [congruence | exact H2].
Defined.

(** ** Eviction for an age that can be negated *)

(** X19.  For a cleanup age other than zero and other than the least
    [Duration], [Cleanup()] removes exactly the entries whose
    [lastAccessed] is before [now - cleanupAge], returns their number and
    leaves the buckets themselves and the configuration alone.  So an
    entry of key [k] that was not accessed for more than [cleanupAge] is
    gone after [Cleanup], and the next [GetBucket(k)] creates a new
    bucket, full to the capacity of the store's configuration. *)
Theorem Cleanup_evicts_idle_entries (w : World) :
  cleanupAge (store w) <> 0 ->
  cleanupAge (store w) <> minDuration ->
  exists w' : World,
    Cleanup w =
      Some (Ok (Z.of_nat (size (filter (idle (clock w (ticks w) - cleanupAge (store w)))
                                 (buckets (store w))))), w') /\
    buckets (store w') =
      filter (fun kv => ~ idle (clock w (ticks w) - cleanupAge (store w)) kv)
        (buckets (store w)) /\
    Z.of_nat (size (buckets (store w'))) =
      Z.of_nat (size (buckets (store w))) -
      Z.of_nat (size (filter (idle (clock w (ticks w) - cleanupAge (store w)))
                        (buckets (store w)))) /\
    heap w' = heap w /\
    config (store w') = config (store w) /\
    forall (k : string) (e : bucketEntry),
      k <> "" ->
      store_ok (store w) ->
      buckets (store w) !! k = Some e ->
      lastAccessed e + cleanupAge (store w) < clock w (ticks w) ->
      buckets (store w') !! k = None /\
      exists (l : loc) (w'' : World) (b : Bucket),
        GetBucket k w' = Some (Ok l, w'') /\
        heap w' !! l = None /\
        heap w'' !! l = Some b /\
        capacity b = BucketConfig.Capacity (config (store w)) /\
        tokens b = float64 (capacity b).
Proof.
  intros H0 Hmin. eexists. split; [apply Cleanup_enabled; assumption|].
  cbn [at_tick store heap buckets config].
  set (cutoff := clock w (ticks w) - cleanupAge (store w)).
  split; [reflexivity|].
  split.
  { rewrite <- (map_filter_union_complement (idle cutoff) (buckets (store w))) at 2.
    rewrite map_size_disj_union by apply map_disjoint_filter_complement. lia. }
  split; [reflexivity|]. split; [reflexivity|].
  intros k e Hk Hok He Hold.
  assert (Hgone : filter (fun kv => ~ idle cutoff kv) (buckets (store w)) !! k = None).
  { apply map_lookup_filter_None. right. intros e' He'.
    rewrite He in He'. injection He' as <-.
    unfold idle, cutoff. cbn [snd]. lia. }
  split; [exact Hgone|].
  eexists _, _, _. split.
  { apply GetBucket_new; [exact Hk | exact Hok | exact Hgone]. }
  cbn [at_tick store heap buckets config].
  split; [apply fresh_loc_free|].
  split; [apply lookup_insert_eq|].
  split; reflexivity.
Qed.

Lemma Cleanup_evicts_idle_entries_witness :
  cleanupAge (store idle_world_1) <> 0 /\
  cleanupAge (store idle_world_1) <> minDuration /\
  exists w' : World,
    Cleanup idle_world_1 = Some (Ok 1, w') /\
    buckets (store w') !! "user1" = None /\
    exists (l : loc) (w'' : World) (b : Bucket),
      GetBucket "user1" w' = Some (Ok l, w'') /\
      heap w'' !! l = Some b /\
      tokens b = float64 10.
Proof.
  assert (H0 : cleanupAge (store idle_world_1) <> 0) by (vm_compute; discriminate).
  assert (Hmin : cleanupAge (store idle_world_1) <> minDuration)
    by (vm_compute; discriminate).
  split; [exact H0|]. split; [exact Hmin|].
  destruct (Cleanup_evicts_idle_entries idle_world_1 H0 Hmin)
    as (w' & E & _ & _ & _ & _ & Hk).
  destruct (Hk "user1" {| bucket := 1%positive; lastAccessed := 150000000 |})
    as (Hgone & l & w'' & b & E' & _ & Hb & Hc & Ht).
  - discriminate.
  - split; reflexivity.
  - vm_compute. reflexivity.
  - vm_compute. reflexivity.
  - exists w'.
    split; [rewrite E; f_equal; f_equal; vm_compute; reflexivity|].
    split; [exact Hgone|].
    exists l, w'', b. split; [exact E'|]. split; [exact Hb|].
    rewrite Ht, Hc. reflexivity.
Defined.

(** ** The limiter's decision *)

(** X20.  For a non-empty key, [Allow(key)] fetches or creates the key's
    bucket and makes up to three calls on it, each at its own reading of
    the clock: [Allow()] at [t1], [Remaining()] at [t2] and, when denied,
    [RetryAfter()] at [t3].  The decision's [Allowed] is the result of
    [Allow()]; its [Remaining] is the result of [Remaining()] on the
    bucket as [Allow()] left it; its [Limit] is the capacity of the
    bucket, which is that of the store's configuration; its [RetryAfter]
    is zero when allowed and the result of [RetryAfter()] when denied. *)
Theorem Allow_builds_the_decision (w : World) (key : string) :
  key <> "" ->
  sound w ->
  exists (l : loc) (w1 : World) (b0 : Bucket) (d : Decision.t) (w' : World),
    GetBucket key w = Some (Ok l, w1) /\
    heap w1 !! l = Some b0 /\
    rateLimiter.Allow key w = Some (Ok d, w') /\
    let t1 := clock w (ticks w1) in
    let t2 := clock w (S (ticks w1)) in
    let t3 := clock w (S (S (ticks w1))) in
    let b1 := snd (Allow t1 b0) in
    let b2 := snd (Remaining t2 b1) in
    Decision.Allowed d = fst (Allow t1 b0) /\
    Decision.Remaining d = fst (Remaining t2 b1) /\
    Decision.Limit d = Capacity b0 /\
    Decision.Limit d = BucketConfig.Capacity (config (store w)) /\
    Decision.Key d = key /\
    Decision.Route d = "" /\
    (Decision.Allowed d = true ->
       Decision.RetryAfter d = 0 /\ heap w' !! l = Some b2) /\
    (Decision.Allowed d = false ->
       Decision.RetryAfter d = fst (RetryAfter t3 b2) /\
       heap w' !! l = Some (snd (RetryAfter t3 b2))) /\
    sound w'.
Proof.
  intros Hk Hs.
  destruct (Allow_run w key Hk Hs)
    as (l & w1 & b0 & d & w' & H1 & H2 & H3 & H4 & H5 & H6 & H7 & H8 & H9 & H10 & H11 & _ & _ & _ & H12).
  exists l, w1, b0, d, w'. cbn zeta. auto 15.
Qed.

Lemma burst_world_sound : sound burst_world.
Proof.
  apply (sound_initial 0 burst_config 0 burst_store burst_clock 0 ∅). reflexivity.
Qed.

Lemma Allow_builds_the_decision_witness :
  "client" <> "" /\
  exists (d : Decision.t) (w' : World),
    rateLimiter.Allow "client" burst_world = Some (Ok d, w') /\
    Decision.Limit d = 1 /\
    Decision.Key d = "client" /\
    sound w'.
Proof.
  split; [discriminate|].
  destruct (Allow_builds_the_decision burst_world "client")
    as (l & w1 & b0 & d & w' & _ & _ & E & _ & _ & _ & Hl & Hk & _ & _ & _ & Hs).
  - discriminate.
  - exact burst_world_sound.
  - exists d, w'. auto.
Defined.

(** * Configuration *)

Lemma fle_0_false (x : binary64) :
  fle x (float64 0) = false <-> x = NaN \/ above_zero x.
Proof.
  unfold NaN.
  destruct x as [s|[]| |[] m e]; cbn; split; try discriminate; auto;
    intros [H|H]; try discriminate; try contradiction.
Qed.

Lemma PolicyConfig_Validate_None (p : PolicyConfig.t) :
  PolicyConfig.Validate p = None <-> policy_ok p.
Proof.
  unfold PolicyConfig.Validate, policy_ok.
  destruct (PolicyConfig.Capacity p <=? 0) eqn:Ec;
    [apply Z.leb_le in Ec | apply Z.leb_gt in Ec].
  - split; [discriminate | lia].
  - destruct (fle (PolicyConfig.RefillRate p) (float64 0)) eqn:Er.
    + split; [discriminate|]. intros [_ H]. discriminate.
    + tauto.
Qed.

Lemma first_invalid_None (l : list (string * PolicyConfig.t)) :
  Config.first_invalid l = None <->
  forall route policy, (route, policy) ∈ l -> PolicyConfig.Validate policy = None.
Proof.
  induction l as [|[r p] rest IH]; cbn [Config.first_invalid].
  - split; [|reflexivity]. intros _ route policy H. apply elem_of_nil in H. contradiction.
  - destruct (PolicyConfig.Validate p) eqn:E.
    + split; [discriminate|]. intros H.
      assert (PolicyConfig.Validate p = None) by (apply (H r p); left). congruence.
    + rewrite IH. split.
      * intros H route policy Hin. apply elem_of_cons in Hin as [[= -> ->]|Hin]; eauto.
      * intros H route policy Hin. apply (H route policy). right. exact Hin.
Qed.

Lemma first_invalid_Some (l : list (string * PolicyConfig.t)) route err :
  Config.first_invalid l = Some (route, err) ->
  exists policy, (route, policy) ∈ l /\ PolicyConfig.Validate policy = Some err.
Proof.
  induction l as [|[r p] rest IH]; cbn [Config.first_invalid]; [discriminate|].
  destruct (PolicyConfig.Validate p) eqn:E.
  - intros [= <- <-]. exists p. split; [left | exact E].
  - intros H. destruct (IH H) as (policy & Hin & Hv). exists policy. split; [right|]; auto.
Qed.

Lemma Config_Validate_None (c : Config.t) :
  Config.Validate c = None <->
  policy_ok (Config.Defaults c) /\
  forall route policy, Config.Policies c !! route = Some policy -> policy_ok policy.
Proof.
  unfold Config.Validate.
  destruct (PolicyConfig.Validate (Config.Defaults c)) eqn:Ed.
  - split; [discriminate|]. intros [H _].
    apply PolicyConfig_Validate_None in H. congruence.
  - apply PolicyConfig_Validate_None in Ed.
    destruct (Config.first_invalid (map_to_list (Config.Policies c))) as [[r e]|] eqn:Ef.
    + split; [discriminate|]. intros [_ H]. exfalso.
      apply first_invalid_Some in Ef as (policy & Hin & Hv).
      apply elem_of_map_to_list in Hin.
      apply H, PolicyConfig_Validate_None in Hin. congruence.
    + split; [|reflexivity]. intros _. split; [exact Ed|].
      intros route policy Hin. apply PolicyConfig_Validate_None.
      apply (proj1 (first_invalid_None _) Ef route policy).
      apply elem_of_map_to_list, Hin.
Qed.

(** X10.  [Config.Validate] accepts a configuration exactly when its
    defaults and every one of its per-route policies pass the two tests of
    [PolicyConfig.Validate]: the capacity is positive and
    [refillRate <= 0] is false.  That test is false of a rate above zero
    and of NaN, so a policy whose rate is NaN is accepted.  Every error of
    [Config.Validate] wraps [ErrInvalidConfig].  For an accepted
    configuration [GetPolicy] returns, for every route, a policy that
    passes the two tests, whose [ToBucketConfig] a store accepts. *)
Theorem Validate_accepts_exactly_valid_policies (c : Config.t) :
  (Config.Validate c = None <->
   policy_ok (Config.Defaults c) /\
   forall route policy, Config.Policies c !! route = Some policy -> policy_ok policy) /\
  (forall p, policy_ok p <->
     0 < PolicyConfig.Capacity p /\
     (PolicyConfig.RefillRate p = NaN \/ above_zero (PolicyConfig.RefillRate p))) /\
  PolicyConfig.Validate
    {| PolicyConfig.Capacity := 100; PolicyConfig.RefillRate := NaN;
       PolicyConfig.Enabled := true |} = None /\
  (forall err, Config.Validate c = Some err -> Is err ErrInvalidConfig) /\
  (Config.Validate c = None ->
   forall (route : string) (now : Time) (age : Duration),
     policy_ok (Config.GetPolicy c route) /\
     exists s, NewInMemoryStore now
                 (PolicyConfig.ToBucketConfig (Config.GetPolicy c route)) age = Ok s).
Proof.
  pose proof (Config_Validate_None c) as Hiff.
  split; [exact Hiff|].
  split; [intros p; unfold policy_ok; rewrite fle_0_false; tauto|].
  split; [reflexivity|].
  split.
  - unfold Config.Validate. intros err.
    destruct (PolicyConfig.Validate (Config.Defaults c)).
    + intros [= <-]. cbn. auto.
    + destruct (Config.first_invalid _) as [[r e]|]; [|discriminate].
      intros [= <-]. cbn. auto.
  - intros Hv route now age. apply Hiff in Hv as [Hd Hp].
    assert (Hgood : policy_ok (Config.GetPolicy c route)).
    { unfold Config.GetPolicy.
      destruct (Config.Policies c !! route) as [policy|] eqn:E.
      - apply (Hp route policy E).
      - exact Hd. }
    split; [exact Hgood|]. destruct Hgood as [Hc Hr].
    unfold NewInMemoryStore, PolicyConfig.ToBucketConfig.
    cbn [BucketConfig.Capacity BucketConfig.RefillRate].
    rewrite (proj2 (Z.leb_gt _ _) Hc), Hr. eauto.
Qed.

(** X11.  [SetPolicy] either rejects the policy with an error that wraps
    [ErrInvalidConfig] and leaves the configuration as it is, or stores
    it: then [GetPolicy] of that route is the new policy, every other
    route keeps its policy, and a configuration that [Validate] accepts is
    still accepted. *)
Theorem SetPolicy_stores_only_valid_policies
  (c : Config.t) (route : string) (policy : PolicyConfig.t) :
  (PolicyConfig.Validate policy <> None ->
     exists err, Config.SetPolicy c route policy = (Some err, c) /\
                 Is err ErrInvalidConfig) /\
  (PolicyConfig.Validate policy = None ->
     exists c', Config.SetPolicy c route policy = (None, c') /\
       Config.GetPolicy c' route = policy /\
       (forall other, other <> route ->
          Config.GetPolicy c' other = Config.GetPolicy c other) /\
       Config.Defaults c' = Config.Defaults c /\
       (Config.Validate c = None -> Config.Validate c' = None)).
Proof.
  unfold Config.SetPolicy. destruct (PolicyConfig.Validate policy) eqn:Ev.
  - split; [|discriminate]. intros _. eexists. split; [reflexivity|]. cbn. auto.
  - split; [congruence|]. intros _. eexists. split; [reflexivity|].
    unfold Config.GetPolicy. cbn [Config.Policies Config.Defaults].
    split; [rewrite lookup_insert_eq; reflexivity|].
    split; [intros other Hne; rewrite lookup_insert_ne by congruence; reflexivity|].
    split; [reflexivity|].
    intros Hv.
    apply Config_Validate_None.
    apply Config_Validate_None in Hv as [Hd Hp].
    cbn [Config.Policies Config.Defaults]. split; [exact Hd|].
    intros r p. rewrite lookup_insert. destruct (decide (route = r)) as [_|_].
    + intros [= <-]. apply PolicyConfig_Validate_None, Ev.
    + apply Hp.
Qed.

(** * Key extraction *)

Section KeyExtractorFacts.

Variable SplitHostPort : string -> option (string * string).
Variable TrimSpace : string -> string.
Variable ToLower : string -> string.
Variable cookie_error : string.

Lemma key_error_Is format args : Is (key_error format args) ErrKeyExtractionFailed.
Proof. cbn. auto. Qed.

Lemma key_or_error_failed format args :
  key_or_error ("", Some (key_error format args)).
Proof. right. eexists. split; [reflexivity | apply key_error_Is]. Qed.

Lemma key_or_error_key (key : string) : key <> "" -> key_or_error (key, None).
Proof. intros H. left. exists key. auto. Qed.

Lemma remote_ip_ok (r : Request) : key_or_error (remote_ip SplitHostPort r).
Proof.
  unfold remote_ip. destruct (decide _).
  - apply key_or_error_failed.
  - apply key_or_error_key. discriminate.
Qed.

Lemma try_extractors_ok (es : list KeyExtractor) (r : Request) :
  forall lastErr, key_or_error (try_extractors es r lastErr).
Proof.
  induction es as [|e rest IH]; intros lastErr; cbn [try_extractors].
  - destruct lastErr; apply key_or_error_failed.
  - destruct (e r) as [key [err|]]; [apply IH|].
    destruct (decide (key = "")); [apply IH | apply key_or_error_key; assumption].
Qed.

(** X12.  Every extractor of the package answers in order, whatever the
    request: either a non-empty key and no error, or the empty key and an
    error that wraps [ErrKeyExtractionFailed].  This holds for
    [ExtractComposite] whatever extractors it is given, and for every
    extractor that [ParseKeyExtractorConfig] returns. *)
Theorem extractors_return_a_key_or_an_error (r : Request) :
  key_or_error (ExtractIP SplitHostPort r) /\
  key_or_error (ExtractIPWithProxy SplitHostPort TrimSpace r) /\
  (forall headerName, key_or_error (ExtractHeader headerName r)) /\
  key_or_error (ExtractBearer ToLower r) /\
  (forall extractors, key_or_error (ExtractComposite extractors r)) /\
  (forall key, key_or_error (ExtractStatic key r)) /\
  (forall cookieName, key_or_error (ExtractCookie cookie_error cookieName r)) /\
  (forall config extractor,
     ParseKeyExtractorConfig SplitHostPort TrimSpace ToLower cookie_error config
       = Success extractor ->
     key_or_error (extractor r)).
Proof.
  assert (Hip : key_or_error (ExtractIP SplitHostPort r)) by apply remote_ip_ok.
  assert (Hproxy : key_or_error (ExtractIPWithProxy SplitHostPort TrimSpace r)).
  { unfold ExtractIPWithProxy.
    destruct (decide (Header_Get r "X-Forwarded-For" = "")) as [_|_].
    - destruct (decide (Header_Get r "X-Real-IP" = ""));
        [apply remote_ip_ok | apply key_or_error_key; discriminate].
    - destruct (Split _ _) as [|first rest].
      + destruct (decide (Header_Get r "X-Real-IP" = ""));
          [apply remote_ip_ok | apply key_or_error_key; discriminate].
      + destruct (decide (TrimSpace first = "")).
        * destruct (decide (Header_Get r "X-Real-IP" = ""));
            [apply remote_ip_ok | apply key_or_error_key; discriminate].
        * apply key_or_error_key. discriminate. }
  assert (Hheader : forall headerName, key_or_error (ExtractHeader headerName r)).
  { intros h. unfold ExtractHeader. destruct (decide _);
      [apply key_or_error_failed | apply key_or_error_key; discriminate]. }
  assert (Hbearer : key_or_error (ExtractBearer ToLower r)).
  { unfold ExtractBearer. destruct (decide _); [apply key_or_error_failed|].
    destruct (SplitN2 _ _) as [|scheme [|token [|? ?]]]; try apply key_or_error_failed.
    destruct (decide _); [|apply key_or_error_failed].
    destruct (decide _); [apply key_or_error_failed | apply key_or_error_key; discriminate]. }
  assert (Hstatic : forall key, key_or_error (ExtractStatic key r)).
  { intros key. unfold ExtractStatic. destruct (decide _);
      [apply key_or_error_failed | apply key_or_error_key; assumption]. }
  assert (Hcookie : forall c, key_or_error (ExtractCookie cookie_error c r)).
  { intros c. unfold ExtractCookie. destruct (Cookie r c); [|apply key_or_error_failed].
    destruct (decide _); [apply key_or_error_failed | apply key_or_error_key; discriminate]. }
  split; [exact Hip|]. split; [exact Hproxy|]. split; [exact Hheader|].
  split; [exact Hbearer|]. split.
  { intros [|e es]; [apply key_or_error_failed | apply try_extractors_ok]. }
  split; [exact Hstatic|]. split; [exact Hcookie|].
  intros config extractor. unfold ParseKeyExtractorConfig.
  destruct (SplitN2 _ config) as [|kind rest]; [discriminate|].
  repeat (destruct (decide _); [try (intros [= <-]; auto) |]); try discriminate.
  - destruct rest as [|name [|? ?]]; try discriminate. intros [= <-]. apply Hheader.
  - destruct rest as [|name [|? ?]]; try discriminate. intros [= <-]. apply Hcookie.
  - destruct rest as [|name [|? ?]]; try discriminate. intros [= <-]. apply Hstatic.
Qed.

(** What the loop of [ExtractComposite] returns when the first [i]
    extractors do not succeed and the next one does. *)
Lemma try_extractors_first (r : Request) (es : list KeyExtractor) :
  forall (i : nat) (e : KeyExtractor) (key : string) (lastErr : option Error),
    es !! i = Some e ->
    e r = (key, None) -> key <> "" ->
    (forall j e', (j < i)%nat -> es !! j = Some e' -> ~ succeeded (e' r)) ->
    try_extractors es r lastErr = (key, None).
Proof.
  induction es as [|e0 rest IH]; intros i e key lastErr He Hr Hk Hbefore.
  - discriminate.
  - destruct i as [|i]; cbn [try_extractors].
    + injection He as ->. rewrite Hr. destruct (decide (key = "")); [contradiction | reflexivity].
    + cbn in He.
      assert (H0 : ~ succeeded (e0 r)) by (apply (Hbefore 0%nat); [lia | reflexivity]).
      assert (Hrest : forall j e', (j < i)%nat -> rest !! j = Some e' -> ~ succeeded (e' r)).
      { intros j e' Hj Hl. apply (Hbefore (S j)); [lia | exact Hl]. }
      destruct (e0 r) as [k0 [err|]]; [eapply IH; eauto|].
      destruct (decide (k0 = "")); [eapply IH; eauto|].
      exfalso. apply H0. split; [reflexivity | assumption].
Qed.

Lemma try_extractors_inv (r : Request) (es : list KeyExtractor) :
  forall (key : string) (lastErr : option Error),
    try_extractors es r lastErr = (key, None) ->
    exists (i : nat) (e : KeyExtractor),
      es !! i = Some e /\ e r = (key, None) /\ key <> "" /\
      (forall j e', (j < i)%nat -> es !! j = Some e' -> ~ succeeded (e' r)).
Proof.
  induction es as [|e0 rest IH]; intros key lastErr; cbn [try_extractors].
  - destruct lastErr; discriminate.
  - destruct (e0 r) as [k0 [err|]] eqn:E0.
    + intros H. destruct (IH _ _ H) as (i & e & He & Hr & Hk & Hb).
      exists (S i), e. split; [exact He|]. split; [exact Hr|]. split; [exact Hk|].
      intros [|j] e' Hj Hl.
      * injection Hl as <-. rewrite E0. intros [H1 _]. discriminate.
      * apply (Hb j e'); [lia | exact Hl].
    + destruct (decide (k0 = "")) as [->|Hk0].
      * intros H. destruct (IH _ _ H) as (i & e & He & Hr & Hk & Hb).
        exists (S i), e. split; [exact He|]. split; [exact Hr|]. split; [exact Hk|].
        intros [|j] e' Hj Hl.
        -- injection Hl as <-. rewrite E0. intros [_ H2]. apply H2. reflexivity.
        -- apply (Hb j e'); [lia | exact Hl].
      * intros [= <-]. exists 0%nat, e0. split; [reflexivity|].
        split; [exact E0|]. split; [exact Hk0|]. intros j e' Hj. lia.
Qed.

(** X13.  [ExtractComposite] answers with the key of the first of its
    extractors, in order, that gives a non-empty key without error, and
    with that key only; when none does it returns an error. *)
Theorem ExtractComposite_takes_the_first_key (es : list KeyExtractor) (r : Request) :
  (forall (i : nat) (e : KeyExtractor) (key : string),
     es !! i = Some e ->
     e r = (key, None) -> key <> "" ->
     (forall j e', (j < i)%nat -> es !! j = Some e' -> ~ succeeded (e' r)) ->
     ExtractComposite es r = (key, None)) /\
  (forall key : string,
     ExtractComposite es r = (key, None) ->
     exists (i : nat) (e : KeyExtractor),
       es !! i = Some e /\ e r = (key, None) /\ key <> "" /\
       (forall j e', (j < i)%nat -> es !! j = Some e' -> ~ succeeded (e' r))) /\
  ((forall e, e ∈ es -> ~ succeeded (e r)) ->
   exists err, ExtractComposite es r = ("", Some err) /\
               Is err ErrKeyExtractionFailed).
Proof.
  split; [|split].
  - intros i e key He Hr Hk Hb. destruct es as [|e0 rest]; [discriminate|].
    apply (try_extractors_first r (e0 :: rest) i e key None); assumption.
  - intros key H. destruct es as [|e0 rest]; [discriminate|].
    apply (try_extractors_inv r (e0 :: rest) key None H).
  - intros Hnone.
    assert (Hok : key_or_error (ExtractComposite es r)).
    { destruct es; [apply key_or_error_failed | apply try_extractors_ok]. }
    destruct Hok as [(key & Hk & E)|(err & E & His)]; [|eauto].
    exfalso. destruct es as [|e0 rest]; [discriminate|].
    destruct (try_extractors_inv r (e0 :: rest) key None E) as (i & e & He & Hr & _ & _).
    apply (Hnone e).
    + apply list_elem_of_lookup. eauto.
    + rewrite Hr. split; [reflexivity | exact Hk].
Qed.

End KeyExtractorFacts.


Section ParseFacts.

Variable SplitHostPort : string -> option (string * string).
Variable TrimSpace : string -> string.
Variable ToLower : string -> string.
Variable cookie_error : string.

Let Parse := ParseKeyExtractorConfig SplitHostPort TrimSpace ToLower cookie_error.

(** X14.  [ParseKeyExtractorConfig] reads the text before the first colon
    as the kind of extractor.  ["ip"], ["ip-proxy"] and ["bearer"] are
    accepted alone, and whatever follows a colon is ignored; ["header"],
    ["cookie"] and ["static"] need a colon and take all that follows it,
    further colons included, as the name or key, and are refused without
    one; any other kind is refused.  Every refusal wraps
    [ErrInvalidConfig].  ["static:"] is accepted, with an extractor that
    always fails. *)
Theorem ParseKeyExtractorConfig_formats :
  Parse "ip" = Success (ExtractIP SplitHostPort) /\
  Parse "ip-proxy" = Success (ExtractIPWithProxy SplitHostPort TrimSpace) /\
  Parse "bearer" = Success (ExtractBearer ToLower) /\
  (forall rest,
     Parse ("ip:" +:+ rest) = Success (ExtractIP SplitHostPort) /\
     Parse ("ip-proxy:" +:+ rest) = Success (ExtractIPWithProxy SplitHostPort TrimSpace) /\
     Parse ("bearer:" +:+ rest) = Success (ExtractBearer ToLower)) /\
  (forall name,
     Parse ("header:" +:+ name) = Success (ExtractHeader name) /\
     Parse ("cookie:" +:+ name) = Success (ExtractCookie cookie_error name) /\
     Parse ("static:" +:+ name) = Success (ExtractStatic name)) /\
  (exists e1 e2 e3,
     Parse "header" = Failure e1 /\ Parse "cookie" = Failure e2 /\
     Parse "static" = Failure e3) /\
  (forall config kind rest,
     SplitN2 ":"%char config = kind :: rest ->
     kind ∉ ["ip"; "ip-proxy"; "header"; "bearer"; "cookie"; "static"] ->
     exists e, Parse config = Failure e) /\
  (forall config e, Parse config = Failure e -> Is e ErrInvalidConfig) /\
  (forall r, exists err,
     ExtractStatic "" r = ("", Some err) /\ Is err ErrKeyExtractionFailed).
Proof.
  unfold Parse.
  split; [reflexivity|]. split; [reflexivity|]. split; [reflexivity|].
  split; [intros rest; repeat split; reflexivity|].
  split; [intros name; repeat split; reflexivity|].
  split; [eexists _, _, _; repeat split; reflexivity|].
  split.
  { intros config kind rest E Hkind. unfold ParseKeyExtractorConfig. rewrite E.
    repeat (destruct (decide _) as [->|?];
            [exfalso; apply Hkind; set_solver|]).
    eauto. }
  split.
  { intros config e. unfold ParseKeyExtractorConfig.
    destruct (SplitN2 _ config) as [|kind rest]; [intros [= <-]; cbn; auto|].
    repeat (destruct (decide _); [try discriminate|]);
      try (destruct rest as [|? [|? ?]]; try discriminate);
      intros [= <-]; cbn; auto. }
  intros r. eexists. split; [reflexivity | cbn; auto].
Qed.

End ParseFacts.



(** * Construction of the limiter *)

Lemma NewConfig_valid : Config.Validate Config.NewConfig = None.
Proof. reflexivity. Qed.

Lemma apply_options_ok (opts : list limiter.Option) : forall rl rl',
  Forall keeps_ok opts ->
  limiter_ok rl ->
  limiter.apply_options opts rl = Success rl' ->
  limiter_ok rl'.
Proof.
  induction opts as [|opt rest IH]; intros rl rl' Hopts Hok; cbn [limiter.apply_options].
  - intros [= <-]. exact Hok.
  - apply Forall_cons in Hopts as [Hopt Hopts].
    destruct (opt rl) as [[err|] rl1] eqn:E; [discriminate|].
    intros H. apply (IH rl1 rl' Hopts); [|exact H].
    apply (proj1 (Hopt rl) rl1 E Hok).
Qed.

Lemma apply_options_failure (opts : list limiter.Option) : forall rl e,
  limiter.apply_options opts rl = Failure e ->
  exists cause, e = Errorf "failed to apply option: %w" cause [].
Proof.
  induction opts as [|opt rest IH]; intros rl e; cbn [limiter.apply_options];
    [discriminate|].
  destruct (opt rl) as [[err|] rl1]; [intros [= <-]; eauto | apply IH].
Qed.

Section ConstructionFacts.

Variable SplitHostPort : string -> option (string * string).
Variable TrimSpace : string -> string.
Variable ToLower : string -> string.
Variable cookie_error : string.

Let New := limiter.NewRateLimiter SplitHostPort TrimSpace ToLower cookie_error.

(** X15.  The options of the package keep the limiter under construction
    in order: each either fails and leaves it untouched, or leaves a
    configuration that [Validate] accepts ([WithStore] a store whose
    configuration passes the tests of [NewInMemoryStore]).  So with such
    options [NewRateLimiter] never fails in creating the default store: it
    fails only in applying an option or in parsing the key extractor, and
    a limiter it returns has a key extractor, a configuration that
    [Validate] accepts and a store whose capacity is positive and whose
    refill rate passes the test [refillRate <= 0], as a rate above zero
    and NaN do. *)
Theorem NewRateLimiter_builds_a_valid_limiter :
  (forall s, store_ok s -> keeps_ok (limiter.WithStore (Some s))) /\
  keeps_ok (limiter.WithStore None) /\
  (forall c, keeps_ok (limiter.WithConfig c)) /\
  (forall file, keeps_ok (limiter.WithConfigFile file)) /\
  (forall extractor, keeps_ok (limiter.WithKeyExtractor extractor)) /\
  (forall capacity refillRate, keeps_ok (limiter.WithDefaults capacity refillRate)) /\
  (forall age, keeps_ok (limiter.WithCleanupAge age)) /\
  (forall interval, keeps_ok (limiter.WithCleanupInterval interval)) /\
  (forall fn, keeps_ok (limiter.WithRouteExtractor fn)) /\
  (forall (now : Time) (opts : list limiter.Option),
     Forall keeps_ok opts ->
     (forall rl, New now opts = Success rl ->
        Config.Validate (limiter.config rl) = None /\
        is_Some (limiter.keyExtractor rl) /\
        exists s, limiter.store rl = Some s /\
          0 < BucketConfig.Capacity (config s) /\
          (BucketConfig.RefillRate (config s) = NaN \/
           above_zero (BucketConfig.RefillRate (config s)))) /\
     (forall err, New now opts = Failure err ->
        exists cause,
          err = Errorf "failed to apply option: %w" cause [] \/
          err = Errorf "failed to parse key extractor config: %w" cause [])).
Proof.
  unfold keeps_ok, limiter_ok.
  split.
  { intros s Hs rl. cbn. split.
    - intros rl' [= <-] [Hv _]. cbn. split; [exact Hv|]. intros s' [= <-]. exact Hs.
    - discriminate. }
  split.
  { intros rl. cbn. split; [discriminate | intros err rl' [= _ <-]; reflexivity]. }
  split.
  { intros [c|] rl; cbn; [|split; [discriminate | intros err rl' [= _ <-]; reflexivity]].
    destruct (Config.Validate c) eqn:Ev.
    - split; [discriminate | intros err rl' [= _ <-]; reflexivity].
    - split; [|discriminate]. intros rl' [= <-] [_ Hs]. cbn. auto. }
  split.
  { intros file rl. unfold limiter.WithConfigFile.
    destruct (Config.LoadConfigFromFile file) as [c|e] eqn:El.
    - split; [|discriminate]. intros rl' [= <-] [_ Hs]. cbn. split; [|exact Hs].
      unfold Config.LoadConfigFromFile in El.
      destruct file as [msg|msg|c0]; [discriminate|discriminate|].
      destruct (Config.Validate _) eqn:Ev in El; [discriminate|].
      injection El as <-. exact Ev.
    - split; [discriminate | intros err rl' [= _ <-]; reflexivity]. }
  split.
  { intros [e|] rl; cbn.
    - split; [|discriminate]. intros rl' [= <-] H. exact H.
    - split; [discriminate | intros err rl' [= _ <-]; reflexivity]. }
  split.
  { intros capacity refillRate rl. unfold limiter.WithDefaults.
    destruct (capacity <=? 0) eqn:Ec;
      [split; [discriminate | intros err rl' [= _ <-]; reflexivity]|].
    destruct (fle refillRate (float64 0)) eqn:Er;
      [split; [discriminate | intros err rl' [= _ <-]; reflexivity]|].
    split; [|discriminate]. intros rl' [= <-] [_ Hs]. cbn [limiter.config limiter.store].
    split; [|exact Hs].
    unfold Config.Validate, PolicyConfig.Validate.
    cbn [Config.Defaults Config.Policies PolicyConfig.Capacity PolicyConfig.RefillRate].
    rewrite Ec, Er. reflexivity. }
  split.
  { intros age rl. cbn. split; [|discriminate]. intros rl' [= <-] H. exact H. }
  split.
  { intros interval rl. unfold limiter.WithCleanupInterval.
    destruct (interval <? 0).
    - split; [discriminate | intros err rl' [= _ <-]; reflexivity].
    - split; [|discriminate]. intros rl' [= <-] H. exact H. }
  split.
  { intros [fn|] rl; cbn.
    - split; [|discriminate]. intros rl' [= <-] H. exact H.
    - split; [discriminate | intros err rl' [= _ <-]; reflexivity]. }
  intros now opts Hopts. unfold New, limiter.NewRateLimiter.
  set (rl0 := {| limiter.store := None; limiter.config := Config.NewConfig;
                 limiter.keyExtractor := None;
                 limiter.routeExtractor := fun path => path;
                 limiter.cleanupAge := 1 * (3600 * Second);
                 limiter.cleanupInterval := 10 * (60 * Second) |}).
  assert (Hok0 : limiter_ok rl0) by (split; [reflexivity | discriminate]).
  destruct (limiter.apply_options opts rl0) as [rl1|e] eqn:Eopts.
  - pose proof (apply_options_ok opts rl0 rl1 Hopts Hok0 Eopts) as [Hv Hs].
    assert (Hstore : exists s,
      match limiter.store rl1 with
      | Some s => Success s
      | None =>
          match NewInMemoryStore now
                  (PolicyConfig.ToBucketConfig (Config.Defaults (limiter.config rl1)))
                  (limiter.cleanupAge rl1) with
          | Err err => Failure (Errorf "failed to create default store: %w" (Sentinel err) [])
          | Ok s => Success s
          end
      end = Success s /\ store_ok s).
    { destruct (limiter.store rl1) as [s|]; [eauto|].
      apply Config_Validate_None in Hv as [[Hc Hr] _].
      unfold NewInMemoryStore, PolicyConfig.ToBucketConfig.
      cbn [BucketConfig.Capacity BucketConfig.RefillRate].
      rewrite (proj2 (Z.leb_gt _ _) Hc), Hr.
      eexists. split; [reflexivity|]. split; assumption. }
    destruct Hstore as (s & -> & [Hsc Hsr]).
    apply fle_0_false in Hsr.
    destruct (limiter.keyExtractor rl1) as [extractor|].
    + split; [|discriminate]. intros rl [= <-]. cbn. eauto 10.
    + destruct (ParseKeyExtractorConfig _ _ _ _ _) as [extractor|e].
      * split; [|discriminate]. intros rl [= <-]. cbn. eauto 10.
      * split; [discriminate|]. intros err [= <-]. eauto.
  - split; [discriminate|]. intros err [= <-].
    destruct (apply_options_failure opts rl0 e Eopts) as [cause ->]. eauto.
Qed.

(** X16.  [NewRateLimiter(WithDefaults(capacity, refillRate))] succeeds
    exactly when the capacity is positive and the test [refillRate <= 0]
    is false, which it is for a rate above zero and for NaN: a rate that
    is NaN is accepted.  The limiter it returns has a new, empty store
    with that capacity and rate that evicts after one hour, created at the
    reading of the clock; its failures wrap the capacity error or the rate
    error. *)
Theorem NewRateLimiter_WithDefaults (now : Time) (capacity : Z) (refillRate : binary64) :
  ((exists rl, New now [limiter.WithDefaults capacity refillRate] = Success rl) <->
   0 < capacity /\ fle refillRate (float64 0) = false) /\
  (fle refillRate (float64 0) = false <-> refillRate = NaN \/ above_zero refillRate) /\
  (exists rl, New now [limiter.WithDefaults 100 NaN] = Success rl) /\
  (forall rl, New now [limiter.WithDefaults capacity refillRate] = Success rl ->
     limiter.store rl =
       Some {| buckets := ∅;
               config := {| BucketConfig.Capacity := capacity;
                            BucketConfig.RefillRate := refillRate |};
               cleanupAge := 3600 * Second;
               lastCleanup := now |} /\
     limiter.keyExtractor rl = Some (ExtractIP SplitHostPort)) /\
  (forall err, New now [limiter.WithDefaults capacity refillRate] = Failure err ->
     (capacity <= 0 /\ Is err ErrNegativeCapacity) \/
     (0 < capacity /\ fle refillRate (float64 0) = true /\ Is err ErrNegativeRefillRate)).
Proof.
  split; [|split; [apply fle_0_false|split; [eexists; reflexivity|]]];
  unfold New, limiter.NewRateLimiter, limiter.apply_options, limiter.WithDefaults.
  - destruct (capacity <=? 0) eqn:Ec; [apply Z.leb_le in Ec | apply Z.leb_gt in Ec].
    + split; [intros [rl H]; discriminate | lia].
    + destruct (fle refillRate (float64 0)) eqn:Er.
      * split; [intros [rl H]; discriminate | intros [_ H]; discriminate].
      * cbn [limiter.keyExtractor limiter.config limiter.store limiter.cleanupAge
             Config.KeyExtractor Config.Defaults].
        change (ParseKeyExtractorConfig SplitHostPort TrimSpace ToLower cookie_error "ip")
          with (Success (ExtractIP SplitHostPort) : Result KeyExtractor).
        unfold NewInMemoryStore, PolicyConfig.ToBucketConfig.
        cbn [BucketConfig.Capacity BucketConfig.RefillRate
             PolicyConfig.Capacity PolicyConfig.RefillRate].
        rewrite (proj2 (Z.leb_gt _ _) Ec), Er.
        split; [auto | eauto].
  - destruct (capacity <=? 0) eqn:Ec; [apply Z.leb_le in Ec | apply Z.leb_gt in Ec].
    + split; [discriminate|]. intros err [= <-]. left. split; [exact Ec | cbn; auto].
    + destruct (fle refillRate (float64 0)) eqn:Er.
      * split; [discriminate|]. intros err [= <-]. right.
        split; [exact Ec|]. split; [reflexivity | cbn; auto].
      * cbn [limiter.keyExtractor limiter.config limiter.store limiter.cleanupAge
             Config.KeyExtractor Config.Defaults].
        change (ParseKeyExtractorConfig SplitHostPort TrimSpace ToLower cookie_error "ip")
          with (Success (ExtractIP SplitHostPort) : Result KeyExtractor).
        unfold NewInMemoryStore, PolicyConfig.ToBucketConfig.
        cbn [BucketConfig.Capacity BucketConfig.RefillRate
             PolicyConfig.Capacity PolicyConfig.RefillRate].
        rewrite (proj2 (Z.leb_gt _ _) Ec), Er.
        split; [|discriminate]. intros rl [= <-]. cbn [limiter.store limiter.keyExtractor].
        replace (1 * (3600 * Second)) with (3600 * Second) by (vm_compute; reflexivity).
        split; reflexivity.
Qed.

End ConstructionFacts.

(** * Requests *)

(** On a route that is limited, a request with a key is decided by
    [Allow(key)]; only the route is filled in. *)
Lemma AllowRequest_enabled
  (rl : limiter.t) (extractor : KeyExtractor) (r : Request) (w : World) (key : string) :
  limiter.keyExtractor rl = Some extractor ->
  sound w ->
  extractor r = (key, None) -> key <> "" ->
  PolicyConfig.Enabled
    (Config.GetPolicy (limiter.config rl) (limiter.routeExtractor rl (URL_Path r))) = true ->
  exists (d d' : Decision.t) (w' : World),
    rateLimiter.Allow key w = Some (Ok d, w') /\
    limiter.AllowRequest rl r w = Some (Success d', w') /\
    Decision.Allowed d' = Decision.Allowed d /\
    Decision.Remaining d' = Decision.Remaining d /\
    Decision.RetryAfter d' = Decision.RetryAfter d /\
    Decision.Key d' = key /\
    Decision.Route d' = limiter.routeExtractor rl (URL_Path r) /\
    Decision.Limit d' = BucketConfig.Capacity (config (store w)) /\
    (Decision.Allowed d' = true -> Decision.RetryAfter d' = 0) /\
    sound w'.
Proof.
  intros Hex Hs Ekey Hk Hen. unfold limiter.AllowRequest. rewrite Hex, Ekey, Hen. cbn [negb].
  destruct (Allow_run w key Hk Hs)
    as (l & w1 & b0 & d & w' & _ & _ & E & _ & _ & _ & Hlim & Hkey & _ & Hallowed & _ & _ & _ & _ & Hs').
  exists d. eexists. exists w'. split; [exact E|].
  rewrite (bind_run _ _ _ _ _ E). split; [reflexivity|].
  cbn [Decision.Allowed Decision.Remaining Decision.Limit Decision.RetryAfter
       Decision.Key Decision.Route].
  repeat (split; [auto; fail|]).
  split; [intros Ha; apply Hallowed, Ha | exact Hs'].
Qed.

(** X17.  [AllowRequest] with key extractor [extractor]: when the
    extractor fails, the error is passed on wrapped and nothing changes;
    on a route whose policy is disabled the request is allowed with
    [Remaining = Limit] the policy's capacity, whatever the key, and
    nothing changes; on an enabled route the empty key gives
    [ErrInvalidKey] and nothing changes, and any other key gives the
    decision of [Allow(key)] with the route filled in, whose limit is the
    capacity of the store and not that of the route's policy. *)
Theorem AllowRequest_outcomes
  (rl : limiter.t) (extractor : KeyExtractor) (r : Request) (w : World) :
  limiter.keyExtractor rl = Some extractor ->
  sound w ->
  let route := limiter.routeExtractor rl (URL_Path r) in
  let policy := Config.GetPolicy (limiter.config rl) route in
  (forall key err, extractor r = (key, Some err) ->
     limiter.AllowRequest rl r w =
       Some (Failure (Errorf "key extraction failed: %w" err []), w)) /\
  (forall key, extractor r = (key, None) -> PolicyConfig.Enabled policy = false ->
     limiter.AllowRequest rl r w =
       Some (Success {| Decision.Allowed := true;
                        Decision.Remaining := PolicyConfig.Capacity policy;
                        Decision.Limit := PolicyConfig.Capacity policy;
                        Decision.RetryAfter := 0;
                        Decision.Key := key;
                        Decision.Route := route |}, w)) /\
  (extractor r = ("", None) -> PolicyConfig.Enabled policy = true ->
     limiter.AllowRequest rl r w = Some (Failure (Sentinel ErrInvalidKey), w)) /\
  (forall key, extractor r = (key, None) -> key <> "" ->
     PolicyConfig.Enabled policy = true ->
     exists (d d' : Decision.t) (w' : World),
       rateLimiter.Allow key w = Some (Ok d, w') /\
       limiter.AllowRequest rl r w = Some (Success d', w') /\
       Decision.Allowed d' = Decision.Allowed d /\
       Decision.Remaining d' = Decision.Remaining d /\
       Decision.RetryAfter d' = Decision.RetryAfter d /\
       Decision.Key d' = key /\
       Decision.Route d' = route /\
       Decision.Limit d' = BucketConfig.Capacity (config (store w)) /\
       sound w').
Proof.
  intros Hex Hs route policy.
  split; [intros key err E; unfold limiter.AllowRequest; rewrite Hex, E; reflexivity|].
  split.
  { intros key E Hen. unfold limiter.AllowRequest. rewrite Hex, E.
    fold route. fold policy. rewrite Hen. reflexivity. }
  split.
  { intros E Hen. unfold limiter.AllowRequest. rewrite Hex, E.
    fold route. fold policy. rewrite Hen. reflexivity. }
  intros key E Hk Hen.
  destruct (AllowRequest_enabled rl extractor r w key Hex Hs E Hk Hen)
    as (d & d' & w' & H1 & H2 & H3 & H4 & H5 & H6 & H7 & H8 & _ & H9).
  exists d, d', w'. auto 10.
Qed.


Lemma AllowRequest_outcomes_witness :
  limiter.AllowRequest example_limiter (example_request "/health") idle_world =
    Some (Success {| Decision.Allowed := true; Decision.Remaining := 5;
                     Decision.Limit := 5; Decision.RetryAfter := 0;
                     Decision.Key := "global"; Decision.Route := "/health" |},
          idle_world) /\
  exists (d : Decision.t) (w' : World),
    limiter.AllowRequest example_limiter (example_request "/api") idle_world =
      Some (Success d, w') /\
    Decision.Limit d = 10.
Proof.
  destruct (AllowRequest_outcomes example_limiter (ExtractStatic "global")
              (example_request "/health") idle_world eq_refl idle_world_sound)
    as (_ & Hdisabled & _).
  destruct (AllowRequest_outcomes example_limiter (ExtractStatic "global")
              (example_request "/api") idle_world eq_refl idle_world_sound)
    as (_ & _ & _ & Henabled).
  split.
  - apply (Hdisabled "global"); reflexivity.
  - destruct (Henabled "global") as (d & d' & w' & _ & E & _ & _ & _ & _ & _ & Hl & _);
      [reflexivity | discriminate | reflexivity|].
    exists d', w'. split; [exact E | exact Hl].
Defined.

